(** * Wordle helper: the word filter, the result display and the keyboard state

    A shallow embedding of the logic of [main.py]: the [check_word]
    predicate and the [word_retriever] generator of
    [WHScreen.search_words], the consumer [WordsDisplayer.display_words]
    with its cap of 200 labels, the clue collectors
    [InputLayout.get_known_letters], [LettersLayout.get_existent_letters]
    and [LettersLayout.get_nonexistent_letters], and the three-state
    [LetterButton.change_state] machine.

    Python values are modelled as follows: [str] is [string] (one
    [ascii] per character), [int] is [Z], a Python list is a [list], an
    exception is a constructor of [exn], and a function that may raise
    returns an [outcome]. *)

From Stdlib Require Import ZArith String Ascii Sorted.
From stdpp Require Import base list strings.

Local Open Scope string_scope.
Local Open Scope Z_scope.

(** ** Python primitives used by the program *)

Module Py.

(** The only exception the modelled code can raise by itself:
    [word[index]] with [index] outside the word. *)
Inductive exn : Set := IndexError.

Inductive outcome (A : Type) : Type :=
| Returned (a : A)
| Raised (e : exn).
Arguments Returned {A} a.
Arguments Raised {A} e.

(** [len(s)] *)
Definition len (s : string) : Z := Z.of_nat (String.length s).

(** [sub in s] on strings: [sub] occurs in [s] as a contiguous
    substring (the empty string occurs in every string). *)
Fixpoint str_in (sub s : string) : bool :=
  String.prefix sub s ||
  match s with
  | EmptyString => false
  | String _ s' => str_in sub s'
  end.

(** [s[index]]: a one-character string; a negative index counts from
    the end, and an index outside [-len(s), len(s)) raises. *)
Definition getitem (s : string) (index : Z) : outcome string :=
  let i := if index <? 0 then index + len s else index in
  if (0 <=? i) && (i <? len s) then
    match String.get (Z.to_nat i) s with
    | Some c => Returned (String c EmptyString)
    | None => Raised IndexError
    end
  else Raised IndexError.

(** [str.lower] and [str.upper] on the ASCII range. *)
Definition lower_char (c : ascii) : ascii :=
  let n := nat_of_ascii c in
  if (65 <=? n)%nat && (n <=? 90)%nat then ascii_of_nat (n + 32) else c.

Definition upper_char (c : ascii) : ascii :=
  let n := nat_of_ascii c in
  if (97 <=? n)%nat && (n <=? 122)%nat then ascii_of_nat (n - 32) else c.

Fixpoint lower (s : string) : string :=
  match s with
  | EmptyString => EmptyString
  | String c s' => String (lower_char c) (lower s')
  end.

Fixpoint upper (s : string) : string :=
  match s with
  | EmptyString => EmptyString
  | String c s' => String (upper_char c) (upper s')
  end.

End Py.
Import Py.

#[global] Instance exn_eq_dec : EqDecision exn.
Proof. solve_decision. Defined.

#[global] Instance outcome_eq_dec {A} `{EqDecision A} : EqDecision (outcome A).
Proof. solve_decision. Defined.

(** ** [check_word] (nested in [word_retriever])

    The three clue lists are the free variables of the closure; here they
    are the first three arguments. *)

(** [for existent_letter in existent_letters:
       if existent_letter not in word: return False]
    [true] when the loop runs to its end, [false] when it returns
    [False]. *)
Fixpoint existent_loop (existent_letters : list string) (word : string) : bool :=
  match existent_letters with
  | [] => true
  | existent_letter :: rest =>
      if negb (str_in existent_letter word) then false
      else existent_loop rest word
  end.

(** [for nonexistent_letter in nonexistent_letters:
       if nonexistent_letter in word: return False] *)
Fixpoint nonexistent_loop (nonexistent_letters : list string) (word : string) : bool :=
  match nonexistent_letters with
  | [] => true
  | nonexistent_letter :: rest =>
      if str_in nonexistent_letter word then false
      else nonexistent_loop rest word
  end.

(** [for letter, index in known_letters:
       if word[index] != letter: return False]
    followed by the final [return True]. *)
Fixpoint known_loop (known_letters : list (string * Z)) (word : string) : outcome bool :=
  match known_letters with
  | [] => Returned true
  | (letter, index) :: rest =>
      match getitem word index with
      | Raised e => Raised e
      | Returned c =>
          if negb (String.eqb c letter) then Returned false
          else known_loop rest word
      end
  end.

Definition check_word (known_letters : list (string * Z))
    (existent_letters nonexistent_letters : list string) (word : string)
    : outcome bool :=
  if negb (len word =? 5) then Returned false
  else if negb (existent_loop existent_letters word) then Returned false
  else if negb (nonexistent_loop nonexistent_letters word) then Returned false
  else known_loop known_letters word.

(** ** The generator [word_retriever]

    [rows] is the result of
    [connection.execute("SELECT word from WORDS ORDER BY probability DESC")]:
    the word column of the table, in the order in which the query
    delivers it.  A generator object is modelled by what is left of its
    run: the next event it produces when resumed, and the generator
    after that event. *)
Inductive generator : Type :=
| StopIteration
| Yield (word : string) (rest : generator)
| Propagate (e : exn).

Fixpoint word_retriever (known_letters : list (string * Z))
    (existent_letters nonexistent_letters : list string)
    (rows : list string) : generator :=
  match rows with
  | [] => StopIteration
  | db_line :: rest =>
      match check_word known_letters existent_letters nonexistent_letters db_line with
      | Raised e => Propagate e
      | Returned true =>
          Yield db_line
            (word_retriever known_letters existent_letters nonexistent_letters rest)
      | Returned false =>
          word_retriever known_letters existent_letters nonexistent_letters rest
      end
  end.

(** Every word the generator yields when it is run to its end (what
    [list(...)] would collect, up to an exception). *)
Fixpoint yields (g : generator) : list string :=
  match g with
  | StopIteration => []
  | Yield word rest => word :: yields rest
  | Propagate _ => []
  end.

(** How a run of the generator ends. *)
Fixpoint ending (g : generator) : outcome unit :=
  match g with
  | StopIteration => Returned tt
  | Yield _ rest => ending rest
  | Propagate e => Raised e
  end.

(** ** [WordsDisplayer.display_words]

    The displayer's [children] are modelled by the texts of its labels, in
    the order in which [add_widget] received them.  The loop returns the
    labels, the generator as the loop leaves it, and how the loop ended
    (an exception of the generator propagates through the [for]). *)
Fixpoint display_loop (words_list : generator) (word_number : Z)
    (children : list string) : list string * generator * outcome unit :=
  match words_list with
  | StopIteration => (children, StopIteration, Returned tt)
  | Propagate e => (children, StopIteration, Raised e)
  | Yield word rest =>
      let word_number := word_number + 1 in
      let children := (children ++ [word])%list in
      if word_number >=? 200 then (children, rest, Returned tt)
      else display_loop rest word_number children
  end.

(** [self.clear_widgets()], [word_number = 0], then the loop.  The
    previous [children] are discarded by [clear_widgets]. *)
Definition display_words (children : list string) (words_list : generator)
    : list string * generator * outcome unit :=
  let children : list string := [] in
  display_loop words_list 0 children.

(** ** [LetterButton] and [LettersLayout] *)

Inductive state : Set := UNKNOWN | EXISTENT | NONEXISTENT.

#[global] Instance state_eq_dec : EqDecision state.
Proof. solve_decision. Defined.

Record LetterButton : Set := mkLetterButton {
  letter : string;
  letter_state : state
}.

(** [LetterButton.__init__]: [self.letter = self.text.lower()] and the
    initial state. *)
Definition new_LetterButton (text : string) : LetterButton :=
  {| letter := lower text; letter_state := UNKNOWN |}.

(** The assignment of [LetterButton.change_state] as a function of the
    current state. *)
Definition next_state (s : state) : state :=
  match s with
  | UNKNOWN => EXISTENT
  | EXISTENT => NONEXISTENT
  | NONEXISTENT => UNKNOWN
  end.

Definition change_state (b : LetterButton) : LetterButton :=
  {| letter := letter b; letter_state := next_state (letter_state b) |}.

Definition KEYBOARD : list string := ["qwertyuiop"; "asdfghjkl"; "zxcvbnm"].

(** The characters of a [str], each as a one-character [str], as a
    [for let in row] loop sees them. *)
Fixpoint chars (s : string) : list string :=
  match s with
  | EmptyString => []
  | String c s' => String c EmptyString :: chars s'
  end.

(** [LettersLayout.__init__]: one button per letter of each row, created
    with [text=let.upper()], appended to [self.letters]. *)
Definition LettersLayout_init : list LetterButton :=
  flat_map (fun row => map (fun let_ => new_LetterButton (upper let_)) (chars row))
    KEYBOARD.

Fixpoint get_existent_letters (letters : list LetterButton) : list string :=
  match letters with
  | [] => []
  | b :: rest =>
      if decide (letter_state b = EXISTENT)
      then letter b :: get_existent_letters rest
      else get_existent_letters rest
  end.

Fixpoint get_nonexistent_letters (letters : list LetterButton) : list string :=
  match letters with
  | [] => []
  | b :: rest =>
      if decide (letter_state b = NONEXISTENT)
      then letter b :: get_nonexistent_letters rest
      else get_nonexistent_letters rest
  end.

(** The events that change the keyboard: a press of the [i]-th button
    (bound to [change_state] by [on_press]) and
    [SettingsPopup.reset_game], which sets every button to [UNKNOWN]. *)
Inductive event : Set :=
| Press (i : nat)
| ResetGame.

Definition reset_letter (b : LetterButton) : LetterButton :=
  {| letter := letter b; letter_state := UNKNOWN |}.

Definition handle (letters : list LetterButton) (ev : event) : list LetterButton :=
  match ev with
  | Press i => alter change_state i letters
  | ResetGame => map reset_letter letters
  end.

Definition run (events : list event) : list LetterButton :=
  fold_left handle events LettersLayout_init.

(** ** [InputLayout.get_known_letters] and [WHScreen.search_words] *)

(** [for index, entry in enumerate(self.entries)], with [index] starting
    at the given value; an entry is modelled by its [text]. *)
Fixpoint known_letters_from (index : Z) (entries : list string) : list (string * Z) :=
  match entries with
  | [] => []
  | entry :: rest =>
      if negb (String.eqb entry "")
      then (lower entry, index) :: known_letters_from (index + 1) rest
      else known_letters_from (index + 1) rest
  end.

Definition get_known_letters (entries : list string) : list (string * Z) :=
  known_letters_from 0 entries.

(** The widgets that [search_words] reads and writes. *)
Record screen : Type := mkScreen {
  entries : list string;
  letters : list LetterButton;
  children : list string
}.

(** [search_words]: the three clue lists are read from the layouts, the
    generator is created and handed to [display_words]. *)
Definition search_words (rows : list string) (s : screen) : screen * outcome unit :=
  let known := get_known_letters (entries s) in
  let existent := get_existent_letters (letters s) in
  let nonexistent := get_nonexistent_letters (letters s) in
  let word_generator := word_retriever known existent nonexistent rows in
  let '(labels, _, r) := display_words (children s) word_generator in
  ({| entries := entries s; letters := letters s; children := labels |}, r).

(** The search as a function of the clue lists and the rows: the labels
    that [display_words] leaves for the generator of [word_retriever]. *)
Definition search (known_letters : list (string * Z))
    (existent_letters nonexistent_letters : list string)
    (rows : list string) : list string :=
  (display_words []
     (word_retriever known_letters existent_letters nonexistent_letters rows)).1.1.

(** ** [InputLayout.get_spacing] and [WordsDisplayerPanel.get_height]

    The sizes are Python integers; [//] is the floor division. *)
Definition get_spacing (Window_width : Z) : Z :=
  let spacing := (Window_width - 5 * 35) / 4 in
  if spacing >? 40 then 40 else spacing.

Definition get_height (words_displayer_height main_panel_height : Z) : Z :=
  if words_displayer_height >? main_panel_height - 60
  then main_panel_height - 60
  else words_displayer_height.

(** ** [DarkMode] and the traversal [WHScreen.search_for_night_mode] *)

(** [DarkMode.__init__]: the mode chosen from the hour of the clock. *)
Definition DarkMode_init (hour : Z) : bool :=
  if (hour <=? 6) || (hour >=? 18) then true else false.

(** The assignment of [DarkMode.toggle_dark_mode] to [_night_mode]. *)
Definition toggle_night_mode (night_mode : bool) : bool :=
  if night_mode then false else true.

(** A widget of the tree under the screen: [dark_mode] is [Some m] for a
    widget that has a callable [change_appearance] (a [DarkMode] widget
    whose [_night_mode] is [m], toggled by [DarkMode.toggle_dark_mode])
    and [None] for any other widget. *)
#[local] Unset Elimination Schemes.
Inductive widget : Type :=
| Widget (dark_mode : option bool) (kids : list widget).
#[local] Set Elimination Schemes.

Definition dark_mode (w : widget) : option bool :=
  match w with Widget m _ => m end.

Definition kids (w : widget) : list widget :=
  match w with Widget _ ks => ks end.

(** The body of the [for child in children] loop: the child is toggled
    when it has [change_appearance], then its own children are searched. *)
Fixpoint search_child (child : widget) : widget :=
  match child with
  | Widget m ks =>
      Widget
        (match m with
         | Some night_mode => Some (toggle_night_mode night_mode)
         | None => None
         end)
        (List.map search_child ks)
  end.

Definition search_for_night_mode (children : list widget) : list widget :=
  List.map search_child children.

(** [WHScreen.toggle_dark_mode]: the screen's own mode, then its tree. *)
Definition WHScreen_toggle_dark_mode (s : bool * list widget) : bool * list widget :=
  (toggle_night_mode s.1, search_for_night_mode s.2).

(** ** [WordsDisplayer] with the colours of its labels *)

(** A label colour: the one a new [Label] has, or a tuple assigned by
    [change_appearance]. *)
Inductive colour : Set :=
| DefaultColour
| Colour (r g b : Z).

#[global] Instance colour_eq_dec : EqDecision colour.
Proof. solve_decision. Defined.

Record WordsDisplayer : Type := mkWordsDisplayer {
  night_mode : bool;
  labels : list (string * colour)
}.

Definition mode_colour (night_mode : bool) : colour :=
  if night_mode then Colour 1 1 1 else Colour 0 0 0.

(** [WordsDisplayer.change_appearance]: every label gets the colour of
    the mode. *)
Definition change_appearance (wd : WordsDisplayer) : WordsDisplayer :=
  {| night_mode := night_mode wd;
     labels := map (λ label, (label.1, mode_colour (night_mode wd))) (labels wd) |}.

(** [DarkMode.toggle_dark_mode] on a [WordsDisplayer]. *)
Definition toggle_dark_mode (wd : WordsDisplayer) : WordsDisplayer :=
  change_appearance
    {| night_mode := toggle_night_mode (night_mode wd); labels := labels wd |}.

(** [display_words] with the colours: the labels are new ones, and the
    final [change_appearance] is reached only when the loop ends without
    an exception. *)
Definition WordsDisplayer_display_words (wd : WordsDisplayer) (words_list : generator)
    : WordsDisplayer * generator * outcome unit :=
  let '(texts, left_over, r) := display_words (map fst (labels wd)) words_list in
  let wd' := {| night_mode := night_mode wd;
                labels := map (λ text, (text, DefaultColour)) texts |} in
  match r with
  | Returned _ => (change_appearance wd', left_over, r)
  | Raised _ => (wd', left_over, r)
  end.

(** ** [WordsDisplayer.load_starting_words] and [SettingsPopup.reset_game] *)

(** [str.isspace] on one character of the ASCII range. *)
Definition isspace_char (c : ascii) : bool :=
  let n := nat_of_ascii c in
  ((9 <=? n)%nat && (n <=? 13)%nat) || ((28 <=? n)%nat && (n <=? 32)%nat).

(** [file.readline()] on a file opened in text mode: the text up to the
    first line end, which is delivered as a line feed. *)
Fixpoint readline (content : string) : string :=
  match content with
  | EmptyString => EmptyString
  | String c rest =>
      if (nat_of_ascii c =? 10)%nat || (nat_of_ascii c =? 13)%nat
      then String (ascii_of_nat 10) EmptyString
      else String c (readline rest)
  end.

(** [str.split()] without arguments: the maximal runs of characters that
    are not whitespace; [word] is the run being read. *)
Fixpoint split_from (word s : string) : list string :=
  match s with
  | EmptyString => if String.eqb word "" then [] else [word]
  | String c rest =>
      if isspace_char c
      then (if String.eqb word "" then split_from "" rest
            else word :: split_from "" rest)
      else split_from (word ++ String c EmptyString) rest
  end.

Definition split (s : string) : list string := split_from "" s.

(** [str.strip()] without arguments. *)
Fixpoint lstrip (s : string) : string :=
  match s with
  | EmptyString => EmptyString
  | String c rest => if isspace_char c then lstrip rest else s
  end.

Fixpoint rstrip (s : string) : string :=
  match s with
  | EmptyString => EmptyString
  | String c rest =>
      let r := rstrip rest in
      if String.eqb r "" && isspace_char c then EmptyString else String c r
  end.

Definition strip (s : string) : string := rstrip (lstrip s).

(** [[word.lower().strip() for word in words_file.readline().split()]] *)
Definition starting_words (content : string) : list string :=
  map (λ word, strip (lower word)) (split (readline content)).

(** The label texts that [load_starting_words] leaves, for a file with
    the given content. *)
Definition load_starting_words (content : string) : list string :=
  "BEST STARTING WORDS" :: starting_words content.

(** [reset_game]: every entry is emptied, every button goes back to
    [UNKNOWN], and the starting words are displayed. *)
Definition reset_game (content : string) (s : screen) : screen :=
  {| entries := map (λ _, "") (entries s);
     letters := map reset_letter (letters s);
     children := load_starting_words content |}.

(** ** [LetterInput.insert_text] *)

(** A character of the ASCII range.  [insert_text] is modelled for a
    substring of such characters, where [str.isalpha], [str.upper] and
    [str.lower] are the functions below; the statements about it carry
    this restriction as a hypothesis. *)
Definition is_ascii (c : ascii) : bool := (nat_of_ascii c <? 128)%nat.

(** [str.isalpha] of a string of ASCII characters: not empty, and
    letters only. *)
Definition isalpha_char (c : ascii) : bool :=
  let n := nat_of_ascii c in
  ((65 <=? n)%nat && (n <=? 90)%nat) || ((97 <=? n)%nat && (n <=? 122)%nat).

Fixpoint all_chars (p : ascii → bool) (s : string) : bool :=
  match s with
  | EmptyString => true
  | String c rest => p c && all_chars p rest
  end.

Definition isalpha (s : string) : bool :=
  negb (String.eqb s "") && all_chars isalpha_char s.

Section LetterInput.

(** [TextInput.insert_text] of the toolkit, as a function of the text of
    the input and the substring, giving the new text. *)
Variable TextInput_insert_text : string → string → string.

(** The text of the input after [insert_text(substring)], for a
    substring of ASCII characters. *)
Definition insert_text (text substring : string) : string :=
  if isalpha substring
  then TextInput_insert_text "" (upper substring)
  else TextInput_insert_text text "".

End LetterInput.

(** The number of presses of a button. *)
Fixpoint presses (n : nat) (b : LetterButton) : LetterButton :=
  match n with
  | O => b
  | S n' => change_state (presses n' b)
  end.

(** ** Notions used in the statements *)


(** Neither a line feed nor a carriage return. *)
Definition not_line_end (c : ascii) : bool :=
  negb ((nat_of_ascii c =? 10)%nat || (nat_of_ascii c =? 13)%nat).

Definition not_space (c : ascii) : bool := negb (isspace_char c).

(** An index [i] that [s[i]] accepts for a string of length [n]. *)
Definition in_range (n i : Z) : Prop := - n <= i < n.

(** The four checks, as a proposition about the word and the clue
    lists. *)
Definition qualifies (known_letters : list (string * Z))
    (existent_letters nonexistent_letters : list string) (word : string) : Prop :=
  len word = 5 ∧
  (∀ l, l ∈ existent_letters → str_in l word = true) ∧
  (∀ l, l ∈ nonexistent_letters → str_in l word = false) ∧
  (∀ l i, (l, i) ∈ known_letters → getitem word i = Returned l).

(** [check_word] returned [True]. *)
Definition passes (known_letters : list (string * Z))
    (existent_letters nonexistent_letters : list string) (word : string) : bool :=
  match check_word known_letters existent_letters nonexistent_letters word with
  | Returned true => true
  | _ => false
  end.

(** The rows on which [check_word] returns [True], in the order of the
    rows. *)
Definition qualifying (known_letters : list (string * Z))
    (existent_letters nonexistent_letters : list string)
    (rows : list string) : list string :=
  filter (λ w, passes known_letters existent_letters nonexistent_letters w = true) rows.

(** ** Example corpora *)

(** The corpus of the example of the specification, in rank order. *)
Definition corpus4 : list string := ["crane"; "trace"; "react"; "cider"].

(** A corpus of 201 distinct five-letter words: one with a [z], then 200
    words over the letters [a] to [y]. *)
Definition word_of (i : nat) : string :=
  String (ascii_of_nat (97 + i / 25))
    (String (ascii_of_nat (97 + i mod 25)) "aaa").

Definition corpus201 : list string := "zaaaa" :: map word_of (seq 0 200).

(** * Properties *)

(** ** Strings *)

Section strings.
Implicit Types (s w sub : string) (c : ascii) (i : Z).

Lemma len_nonneg s : 0 <= len s.
Proof. unfold len. lia. Qed.

Lemma get_lt_length (n : nat) s :
  (n < String.length s)%nat → ∃ c, String.get n s = Some c.
Proof.
  revert n. induction s as [|a s IH]; intros n Hn; simpl in *; [lia|].
  destruct n as [|n]; [by exists a|]. apply IH. lia.
Qed.

Lemma getitem_returned s i :
  in_range (len s) i → ∃ c, getitem s i = Returned (String c EmptyString).
Proof.
  unfold in_range, getitem. intros Hi. pose proof (len_nonneg s) as Hs.
  set (j := if i <? 0 then i + len s else i).
  assert (0 <= j < len s) as Hj by (subst j; destruct (Z.ltb_spec i 0); lia).
  destruct (Z.leb_spec 0 j); [|lia]. destruct (Z.ltb_spec j (len s)); [|lia].
  simpl. destruct (get_lt_length (Z.to_nat j) s) as [c ->]; [unfold len in *; lia|].
  by exists c.
Qed.

Lemma getitem_raised s i e :
  getitem s i = Raised e → ¬ in_range (len s) i.
Proof.
  intros Hr Hi. destruct (getitem_returned s i Hi) as [c Hc]. congruence.
Qed.

Lemma getitem_in_range s i r :
  getitem s i = Returned r → in_range (len s) i.
Proof.
  unfold in_range, getitem.
  destruct (Z.ltb_spec i 0);
    [destruct (Z.leb_spec 0 (i + len s)); destruct (Z.ltb_spec (i + len s) (len s))
    |destruct (Z.leb_spec 0 i); destruct (Z.ltb_spec i (len s))];
    simpl; try discriminate; lia.
Qed.

(** A one-character string occurs in [s] exactly when the character
    stands at some position of [s]. *)
Lemma str_in_char c s :
  str_in (String c EmptyString) s = true ↔ ∃ n : nat, String.get n s = Some c.
Proof.
  induction s as [|a s IH]; simpl.
  - split; [discriminate|]. by intros [n ?].
  - rewrite orb_true_iff, IH. split.
    + intros [Hp|[n Hn]]; [|by exists (S n)].
      exists 0%nat. destruct (ascii_dec c a); [by subst|discriminate].
    + intros [[|n] Hn]; [left|right; by exists n].
      simpl in Hn. injection Hn as ->.
      destruct (ascii_dec c c); [|done]. by destruct s.
Qed.

Lemma getitem_str_in s i c :
  getitem s i = Returned (String c EmptyString) →
  str_in (String c EmptyString) s = true.
Proof.
  unfold getitem. intros H. apply str_in_char.
  destruct (_ && _); [|discriminate].
  destruct (String.get _ s) as [c'|] eqn:Hg; [|discriminate].
  injection H as ->. eauto.
Qed.

End strings.

(** ** [check_word] *)

Section check_word.
Implicit Types (k : list (string * Z)) (e n : list string) (w l : string).

Lemma existent_loop_true e w :
  existent_loop e w = true ↔ ∀ l, l ∈ e → str_in l w = true.
Proof.
  induction e as [|l0 e IH]; simpl.
  - split; [|done]. intros _ l Hl. inversion Hl.
  - destruct (str_in l0 w) eqn:Hin; simpl.
    + rewrite IH. split.
      * intros H l Hl. apply elem_of_cons in Hl as [->|Hl]; auto.
      * intros H l Hl. apply H. by right.
    + split; [discriminate|]. intros H.
      rewrite (H l0) in Hin; [discriminate|by left].
Qed.

Lemma nonexistent_loop_true n w :
  nonexistent_loop n w = true ↔ ∀ l, l ∈ n → str_in l w = false.
Proof.
  induction n as [|l0 n IH]; simpl.
  - split; [|done]. intros _ l Hl. inversion Hl.
  - destruct (str_in l0 w) eqn:Hin.
    + split; [discriminate|]. intros H.
      rewrite (H l0) in Hin; [discriminate|by left].
    + rewrite IH. split.
      * intros H l Hl. apply elem_of_cons in Hl as [->|Hl]; auto.
      * intros H l Hl. apply H. by right.
Qed.

Lemma known_loop_true k w :
  known_loop k w = Returned true ↔
  ∀ l i, (l, i) ∈ k → getitem w i = Returned l.
Proof.
  induction k as [|[l0 i0] k IH]; simpl.
  - split; [|done]. intros _ l i Hl. inversion Hl.
  - destruct (getitem w i0) as [c|x] eqn:Hg.
    + destruct (String.eqb_spec c l0) as [->|Hne]; simpl.
      * rewrite IH. split.
        -- intros H l i Hl. apply elem_of_cons in Hl as [[= -> ->]|Hl]; auto.
        -- intros H l i Hl. apply H. by right.
      * split; [discriminate|]. intros H.
        specialize (H l0 i0 ltac:(by left)). congruence.
    + split; [discriminate|]. intros H.
      specialize (H l0 i0 ltac:(by left)). congruence.
Qed.

(** An exception of [known_loop] comes from an index of the list that
    is outside the word. *)
Lemma known_loop_raised k w x :
  known_loop k w = Raised x →
  ∃ l i, (l, i) ∈ k ∧ ¬ in_range (len w) i.
Proof.
  induction k as [|[l0 i0] k IH]; simpl; [discriminate|].
  destruct (getitem w i0) as [c|x'] eqn:Hg.
  - destruct (negb _); [discriminate|]. intros H.
    destruct (IH H) as (l & i & Hl & Hi). exists l, i. split; [by right|done].
  - intros _. exists l0, i0. split; [by left|]. by eapply getitem_raised.
Qed.

Lemma known_loop_in_range k w :
  (∀ l i, (l, i) ∈ k → in_range (len w) i) →
  ∃ b, known_loop k w = Returned b.
Proof.
  intros H. destruct (known_loop k w) as [b|x] eqn:Hk; [by exists b|].
  destruct (known_loop_raised _ _ _ Hk) as (l & i & Hl & Hi).
  destruct Hi. eauto.
Qed.

(** [check_word] returns [True] exactly for the words that pass the
    four checks. *)
Lemma check_word_true k e n w :
  check_word k e n w = Returned true ↔ qualifies k e n w.
Proof.
  unfold check_word, qualifies.
  rewrite <- existent_loop_true, <- nonexistent_loop_true, <- known_loop_true.
  destruct (Z.eqb_spec (len w) 5) as [Hlen|Hlen]; simpl;
    [|split; [discriminate|tauto]].
  destruct (existent_loop e w); simpl; [|split; [discriminate|intuition discriminate]].
  destruct (nonexistent_loop n w); simpl; [|split; [discriminate|intuition discriminate]].
  tauto.
Qed.

Lemma passes_true k e n w : passes k e n w = true ↔ qualifies k e n w.
Proof.
  rewrite <- check_word_true. unfold passes.
  destruct (check_word k e n w) as [[]|]; split; congruence.
Qed.

(** [check_word] raises only on a five-letter word, and only because a
    position of the known letters is outside [-5, 5). *)
Lemma check_word_raised k e n w x :
  check_word k e n w = Raised x →
  len w = 5 ∧ ∃ l i, (l, i) ∈ k ∧ ¬ in_range 5 i.
Proof.
  unfold check_word.
  destruct (Z.eqb_spec (len w) 5) as [Hlen|Hlen]; simpl; [|discriminate].
  destruct (existent_loop e w); simpl; [|discriminate].
  destruct (nonexistent_loop n w); simpl; [|discriminate].
  intros H. split; [done|]. rewrite <- Hlen. by eapply known_loop_raised.
Qed.

(** When [check_word] raises on one word, it returns [True] on no
    word: the position that is out of range for the one is out of range
    for every five-letter word. *)
Lemma check_word_raised_none_passes k e n w x w' :
  check_word k e n w = Raised x → passes k e n w' = false.
Proof.
  intros Hr. destruct (check_word_raised _ _ _ _ _ Hr) as (_ & l & i & Hl & Hi).
  destruct (passes k e n w') eqn:Hp; [|done].
  apply passes_true in Hp as (Hlen & _ & _ & Hk).
  specialize (Hk l i Hl). apply getitem_in_range in Hk. rewrite Hlen in Hk. done.
Qed.

(** The checks before the position check return [False] without
    reading any position. *)
Lemma check_word_length k e n w :
  len w ≠ 5 → check_word k e n w = Returned false.
Proof.
  intros H. unfold check_word. by destruct (Z.eqb_spec (len w) 5).
Qed.

Lemma check_word_existent k e n w l :
  l ∈ e → str_in l w = false → check_word k e n w = Returned false.
Proof.
  intros Hl Hin. unfold check_word. destruct (negb (len w =? 5)); [done|].
  destruct (existent_loop e w) eqn:He; [|done].
  rewrite existent_loop_true in He. rewrite (He l Hl) in Hin. discriminate.
Qed.

Lemma check_word_nonexistent k e n w l :
  l ∈ n → str_in l w = true → check_word k e n w = Returned false.
Proof.
  intros Hl Hin. unfold check_word. destruct (negb (len w =? 5)); [done|].
  destruct (negb (existent_loop e w)); [done|].
  destruct (nonexistent_loop n w) eqn:Hn; [|done].
  rewrite nonexistent_loop_true in Hn. rewrite (Hn l Hl) in Hin. discriminate.
Qed.

End check_word.

(** ** The generator and its consumer *)

Section generator.
Implicit Types (k : list (string * Z)) (e n rows : list string) (w : string).
Implicit Types (g : generator).

Lemma qualifying_none k e n rows :
  (∀ w, passes k e n w = false) → qualifying k e n rows = [].
Proof.
  intros H. unfold qualifying. induction rows as [|w rows IH]; [done|].
  rewrite filter_cons. rewrite decide_False; [done|]. rewrite H. discriminate.
Qed.

(** The words the generator yields are the qualifying rows, also when
    its run ends in an exception. *)
Lemma yields_word_retriever k e n rows :
  yields (word_retriever k e n rows) = qualifying k e n rows.
Proof.
  induction rows as [|w rows IH]; [done|].
  unfold qualifying in *. rewrite filter_cons. simpl.
  destruct (check_word k e n w) as [[]|x] eqn:Hc.
  - rewrite decide_True by (unfold passes; by rewrite Hc). simpl. by rewrite IH.
  - rewrite decide_False by (unfold passes; rewrite Hc; discriminate). done.
  - rewrite decide_False by (unfold passes; rewrite Hc; discriminate).
    simpl. symmetry.
    apply (qualifying_none k e n rows). intros w'.
    by eapply check_word_raised_none_passes.
Qed.

Lemma elem_of_qualifying k e n rows w :
  w ∈ qualifying k e n rows ↔ w ∈ rows ∧ qualifies k e n w.
Proof.
  unfold qualifying. rewrite list_elem_of_filter, passes_true. tauto.
Qed.

Lemma qualifying_sublist k e n rows : qualifying k e n rows `sublist_of` rows.
Proof. apply sublist_filter. Qed.

(** The generator ends without an exception when every position of the
    known letters is inside a five-letter word. *)
Lemma ending_word_retriever k e n rows :
  (∀ l i, (l, i) ∈ k → in_range 5 i) →
  ending (word_retriever k e n rows) = Returned tt.
Proof.
  intros Hk. induction rows as [|w rows IH]; [done|]. simpl.
  destruct (check_word k e n w) as [[]|x] eqn:Hc; simpl; [done..|].
  destruct (check_word_raised _ _ _ _ _ Hc) as (_ & l & i & Hl & Hi).
  destruct Hi. eauto.
Qed.

(** The loop of [display_words], started with [word_number] below 200:
    the labels it adds are the next [200 - word_number] yields, and the
    generator is left with the yields after those. *)
Lemma display_loop_labels g (word_number : Z) (children : list string) :
  0 <= word_number < 200 →
  (display_loop g word_number children).1.1 =
    (children ++ take (Z.to_nat (200 - word_number)) (yields g))%list.
Proof.
  revert word_number children.
  induction g as [|w g IH|x]; intros m ch Hm; simpl.
  - by rewrite take_nil, app_nil_r.
  - replace (Z.to_nat (200 - m)) with (S (Z.to_nat (200 - (m + 1)))) by lia.
    simpl. destruct (Z.geb_spec (m + 1) 200) as [Hge|Hlt]; simpl.
    + replace (Z.to_nat (200 - (m + 1))) with 0%nat by lia. by rewrite take_0.
    + rewrite IH by lia. by rewrite <- app_assoc.
  - by rewrite take_nil, app_nil_r.
Qed.

Lemma display_loop_rest g (word_number : Z) (children : list string) :
  0 <= word_number < 200 →
  yields (display_loop g word_number children).1.2 =
    drop (Z.to_nat (200 - word_number)) (yields g).
Proof.
  revert word_number children.
  induction g as [|w g IH|x]; intros m ch Hm; simpl.
  - by rewrite drop_nil.
  - replace (Z.to_nat (200 - m)) with (S (Z.to_nat (200 - (m + 1)))) by lia.
    simpl. destruct (Z.geb_spec (m + 1) 200) as [Hge|Hlt]; simpl.
    + replace (Z.to_nat (200 - (m + 1))) with 0%nat by lia. by rewrite drop_0.
    + by rewrite IH by lia.
  - by rewrite drop_nil.
Qed.

Lemma display_loop_ending g (word_number : Z) (children : list string) :
  ending g = Returned tt →
  (display_loop g word_number children).2 = Returned tt.
Proof.
  revert word_number children.
  induction g as [|w g IH|x]; intros m ch Hg; simpl in *; [done| |done].
  destruct (m + 1 >=? 200); [done|]. by apply IH.
Qed.

Lemma display_words_labels (children : list string) g :
  (display_words children g).1.1 = take 200 (yields g).
Proof.
  unfold display_words. rewrite display_loop_labels by lia. done.
Qed.

Lemma search_take k e n rows :
  search k e n rows = take 200 (qualifying k e n rows).
Proof.
  unfold search. by rewrite display_words_labels, yields_word_retriever.
Qed.

Lemma search_words_children rows (s : screen) :
  children (search_words rows s).1 =
    search (get_known_letters (entries s)) (get_existent_letters (letters s))
      (get_nonexistent_letters (letters s)) rows.
Proof.
  unfold search_words, search.
  rewrite !display_words_labels.
  destruct (display_words _ _) as [[labels g] r] eqn:Hd. simpl.
  pose proof (display_words_labels (children s)
    (word_retriever (get_known_letters (entries s))
       (get_existent_letters (letters s))
       (get_nonexistent_letters (letters s)) rows)) as H.
  rewrite Hd in H. simpl in H. done.
Qed.

End generator.

(** ** The clue collectors *)

Section clues.
Implicit Types (ls : list LetterButton) (b : LetterButton) (l : string).

Lemma known_letters_from_range (index : Z) (entries : list string) l i :
  (l, i) ∈ known_letters_from index entries →
  index <= i < index + Z.of_nat (length entries).
Proof.
  revert index. induction entries as [|entry rest IH]; intros m H; simpl in *.
  - inversion H.
  - destruct (negb (entry =? "")%string).
    + apply elem_of_cons in H as [[= -> ->]|H]; [lia|]. apply IH in H. lia.
    + apply IH in H. lia.
Qed.

(** The five entries of [InputLayout] give positions 0 to 4. *)
Lemma get_known_letters_in_range (entries : list string) l i :
  length entries = 5%nat →
  (l, i) ∈ get_known_letters entries → in_range 5 i.
Proof.
  intros Hlen H. apply known_letters_from_range in H.
  unfold in_range. rewrite Hlen in H. lia.
Qed.

Lemma elem_of_get_existent_letters ls l :
  l ∈ get_existent_letters ls ↔
  ∃ b, b ∈ ls ∧ letter b = l ∧ letter_state b = EXISTENT.
Proof.
  induction ls as [|b ls IH]; simpl.
  - split; [intros H; inversion H|]. intros (b & H & _). inversion H.
  - destruct (decide (letter_state b = EXISTENT)) as [Hb|Hb].
    + rewrite elem_of_cons, IH. split.
      * intros [->|(b' & ? & ? & ?)]; [exists b|exists b'];
          split_and!; try done; by constructor.
      * intros (b' & Hin & <- & Hs).
        apply elem_of_cons in Hin as [->|Hin]; [by left|right; eauto].
    + rewrite IH. split.
      * intros (b' & ? & ? & ?). exists b'. split_and!; try done. by right.
      * intros (b' & Hin & <- & Hs).
        apply elem_of_cons in Hin as [->|Hin]; [done|eauto].
Qed.

Lemma elem_of_get_nonexistent_letters ls l :
  l ∈ get_nonexistent_letters ls ↔
  ∃ b, b ∈ ls ∧ letter b = l ∧ letter_state b = NONEXISTENT.
Proof.
  induction ls as [|b ls IH]; simpl.
  - split; [intros H; inversion H|]. intros (b & H & _). inversion H.
  - destruct (decide (letter_state b = NONEXISTENT)) as [Hb|Hb].
    + rewrite elem_of_cons, IH. split.
      * intros [->|(b' & ? & ? & ?)]; [exists b|exists b'];
          split_and!; try done; by constructor.
      * intros (b' & Hin & <- & Hs).
        apply elem_of_cons in Hin as [->|Hin]; [by left|right; eauto].
    + rewrite IH. split.
      * intros (b' & ? & ? & ?). exists b'. split_and!; try done. by right.
      * intros (b' & Hin & <- & Hs).
        apply elem_of_cons in Hin as [->|Hin]; [done|eauto].
Qed.

(** Two buttons of a keyboard without a repeated letter are the same
    button when they carry the same letter. *)
Lemma same_letter_same_button ls b1 b2 :
  NoDup (map letter ls) → b1 ∈ ls → b2 ∈ ls → letter b1 = letter b2 → b1 = b2.
Proof.
  induction ls as [|b ls IH]; simpl; intros Hnd H1 H2 Heq; [inversion H1|].
  apply NoDup_cons in Hnd as [Hb Hnd].
  apply elem_of_cons in H1 as [->|H1]; apply elem_of_cons in H2 as [->|H2];
    try done; [| |by apply IH].
  - destruct Hb. rewrite Heq. apply list_elem_of_fmap. eauto.
  - destruct Hb. rewrite <- Heq. apply list_elem_of_fmap. eauto.
Qed.

Lemma existent_nonexistent_disjoint ls l :
  NoDup (map letter ls) →
  ¬ (l ∈ get_existent_letters ls ∧ l ∈ get_nonexistent_letters ls).
Proof.
  intros Hnd [He Hn].
  apply elem_of_get_existent_letters in He as (b1 & H1 & Hl1 & Hs1).
  apply elem_of_get_nonexistent_letters in Hn as (b2 & H2 & Hl2 & Hs2).
  assert (b1 = b2) by (eapply same_letter_same_button; eauto; congruence).
  congruence.
Qed.

(** No event changes which letter a button carries. *)
Lemma handle_letters ls ev : map letter (handle ls ev) = map letter ls.
Proof.
  destruct ev as [i|]; simpl.
  - revert i. induction ls as [|b ls IH]; intros [|i]; simpl; try done.
    f_equal. apply IH.
  - induction ls as [|b ls IH]; simpl; [done|]. by f_equal.
Qed.

Lemma run_letters (events : list event) :
  map letter (run events) = map letter LettersLayout_init.
Proof.
  unfold run. generalize LettersLayout_init as ls.
  induction events as [|ev events IH]; intros ls; simpl; [done|].
  by rewrite IH, handle_letters.
Qed.

(** The keyboard has the 26 letters, each once. *)
Lemma keyboard_letters :
  map letter LettersLayout_init = chars "qwertyuiopasdfghjklzxcvbnm".
Proof. reflexivity. Qed.

Lemma keyboard_NoDup : NoDup (map letter LettersLayout_init).
Proof.
  rewrite keyboard_letters.
  apply (bool_decide_unpack _). by vm_compute.
Qed.

Lemma press_three_times ls (i : nat) :
  handle (handle (handle ls (Press i)) (Press i)) (Press i) = ls.
Proof.
  simpl. revert i. induction ls as [|b ls IH]; intros [|i]; simpl; try done.
  - by destruct b as [l []].
  - f_equal. apply IH.
Qed.

End clues.

(** * The search *)

Section search.
Implicit Types (k : list (string * Z)) (e n rows : list string) (w l : string).

Lemma filter_sublist_impl {A} (P Q : A → Prop)
    `{!∀ x, Decision (P x)} `{!∀ x, Decision (Q x)} (xs : list A) :
  (∀ x, P x → Q x) → filter P xs `sublist_of` filter Q xs.
Proof.
  intros HPQ. induction xs as [|x xs IH]; [done|].
  rewrite !filter_cons. destruct (decide (P x)) as [HP|HP].
  - rewrite decide_True by auto. by constructor.
  - destruct (decide (Q x)); [by constructor|done].
Qed.

(** One more letter in the nonexistent list leaves a subsequence of the
    qualifying rows. *)
Lemma qualifying_nonexistent_mono k e n n' rows :
  (∀ l, l ∈ n → l ∈ n') →
  qualifying k e n' rows `sublist_of` qualifying k e n rows.
Proof.
  intros Hincl. apply filter_sublist_impl. intros w.
  rewrite !passes_true. intros (? & ? & Hn & ?). split_and!; auto.
Qed.

Lemma search_nonexistent_mono_short k e n n' rows w :
  (∀ l, l ∈ n → l ∈ n') →
  (length (qualifying k e n rows) <= 200)%nat →
  w ∈ search k e n' rows → w ∈ search k e n rows.
Proof.
  intros Hincl Hlen. rewrite !search_take. intros Hw.
  rewrite take_ge by done.
  apply elem_of_take in Hw as (i & Hi & _). apply list_elem_of_lookup_2 in Hi.
  eapply elem_of_sublist; [done|]. by apply qualifying_nonexistent_mono.
Qed.

(** Without clues every five-letter word qualifies. *)
Lemma qualifying_no_clues rows :
  Forall (λ w, len w = 5) rows → qualifying [] [] [] rows = rows.
Proof.
  intros H. unfold qualifying. induction H as [|w rows Hw H IH]; [done|].
  rewrite filter_cons, decide_True; [by rewrite IH|].
  apply passes_true. split_and!; [done| | |].
  - intros ? Hx. inversion Hx.
  - intros ? Hx. inversion Hx.
  - intros ? ? Hx. inversion Hx.
Qed.

(** A row that is skipped does not change what the generator does. *)
Lemma word_retriever_skip k e n rows1 w rows2 :
  check_word k e n w = Returned false →
  word_retriever k e n (rows1 ++ w :: rows2) = word_retriever k e n (rows1 ++ rows2).
Proof.
  intros Hw. induction rows1 as [|w1 rows1 IH]; simpl; [by rewrite Hw|].
  by rewrite IH.
Qed.

Lemma word_retriever_all_false k e n rows :
  (∀ w, check_word k e n w = Returned false) →
  word_retriever k e n rows = StopIteration.
Proof.
  intros H. induction rows as [|w rows IH]; simpl; [done|]. by rewrite H.
Qed.

End search.

(** ** The examples of the specification *)

Example search_example :
  search [("r", 1)] ["a"] ["i"] corpus4 = ["crane"; "trace"].
Proof. reflexivity. Qed.

Example check_word_react :
  check_word [("r", 1)] ["a"] ["i"] "react" = Returned false.
Proof. reflexivity. Qed.

Example check_word_out_of_range :
  check_word [("r", 5)] ["a"] ["i"] "crane" = Raised IndexError.
Proof. reflexivity. Qed.

Example check_word_negative_index :
  check_word [("e", -1)] ["a"] ["i"] "crane" = Returned true.
Proof. reflexivity. Qed.

(** * The claims *)

(** C1.  A word is yielded by the generator of the search (before the
    cap of 200 is applied) if and only if it is a row of the corpus that
    passes the four checks: it has length 5, every existent letter occurs
    in it, no nonexistent letter occurs in it, and at every known
    position it has the known letter. *)
Theorem yielded_iff_four_checks (known_letters : list (string * Z))
    (existent_letters nonexistent_letters rows : list string) (w : string) :
  w ∈ yields (word_retriever known_letters existent_letters nonexistent_letters rows)
  ↔ w ∈ rows ∧
    len w = 5 ∧
    (∀ l, l ∈ existent_letters → str_in l w = true) ∧
    (∀ l, l ∈ nonexistent_letters → str_in l w = false) ∧
    (∀ l i, (l, i) ∈ known_letters → getitem w i = Returned l).
Proof.
  rewrite yields_word_retriever. apply elem_of_qualifying.
Qed.

(** C2.  The words produced by the search form an order-preserving
    subsequence of the rows as the query delivers them; this holds for
    the generator and for the labels that are displayed, which are the
    first 200 qualifying rows in the order of the rows. *)
Theorem search_preserves_order (known_letters : list (string * Z))
    (existent_letters nonexistent_letters rows : list string) :
  yields (word_retriever known_letters existent_letters nonexistent_letters rows)
    `sublist_of` rows ∧
  search known_letters existent_letters nonexistent_letters rows
    `sublist_of` rows ∧
  search known_letters existent_letters nonexistent_letters rows =
    take 200
      (filter (λ w, check_word known_letters existent_letters nonexistent_letters w
                    = Returned true) rows).
Proof.
  rewrite yields_word_retriever, search_take. split_and!.
  - apply qualifying_sublist.
  - etrans; [apply sublist_take|apply qualifying_sublist].
  - f_equal. unfold qualifying. apply list_filter_iff. intros w.
    rewrite passes_true. symmetry. apply check_word_true.
Qed.

(** C3.  [display_words] stops after 200 words or when the generator is
    exhausted, whichever comes first: the labels are the first 200 yields,
    so there are never more than 200 of them, and the generator is left
    with all the yields after the first 200 still to be produced. *)
Theorem display_words_stops_at_200 (known_letters : list (string * Z))
    (existent_letters nonexistent_letters rows children : list string) :
  let g := word_retriever known_letters existent_letters nonexistent_letters rows in
  let labels := (display_words children g).1.1 in
  let left_over := (display_words children g).1.2 in
  labels = take 200 (yields g) ∧
  length labels = Nat.min 200 (length (yields g)) ∧
  (length labels <= 200)%nat ∧
  yields left_over = drop 200 (yields g).
Proof.
  intros g labels left_over. subst labels left_over.
  rewrite display_words_labels. split_and!.
  - done.
  - apply length_take.
  - rewrite length_take. lia.
  - unfold display_words. by rewrite display_loop_rest by lia.
Qed.

(** C4, as stated: the search with no clues returns the first [limit]
    rows, for every [limit].  The search has no limit to choose: on a
    corpus of two words and with [limit = 1] both words are displayed. *)
Lemma search_has_no_limit_parameter :
  ¬ (∀ (limit : nat) (rows : list string),
       Forall (λ w, len w = 5) rows → search [] [] [] rows = take limit rows).
Proof.
  intros H. specialize (H 1%nat ["crane"; "trace"]).
  assert (Forall (λ w, len w = 5) ["crane"; "trace"]) as Hf
    by (repeat constructor).
  specialize (H Hf). vm_compute in H. discriminate.
Qed.

(** C4, amended.  With no known, existent or nonexistent letters the
    search returns the first 200 words of a corpus of five-letter words,
    in the order of the corpus, unchanged. *)
Theorem search_no_clues_first_200 (rows : list string) :
  Forall (λ w, len w = 5) rows → search [] [] [] rows = take 200 rows.
Proof.
  intros H. by rewrite search_take, qualifying_no_clues.
Qed.

Lemma search_no_clues_first_200_witness :
  Forall (λ w, len w = 5) corpus4 ∧ search [] [] [] corpus4 = take 200 corpus4.
Proof.
  assert (Forall (λ w, len w = 5) corpus4) as H by (repeat constructor).
  split; [exact H|exact (search_no_clues_first_200 corpus4 H)].
Defined.

(** C5.  With the letter r known at position 0 and r among the
    nonexistent letters, a word whose only r is at position 0 is
    rejected: the occurrence at the known position counts for the
    nonexistent check. *)
Theorem known_letter_counts_as_occurrence
    (existent_letters nonexistent_letters rows : list string) (w : string) :
  "r" ∈ nonexistent_letters →
  getitem w 0 = Returned "r" →
  (∀ i, 0 < i < 5 → getitem w i ≠ Returned "r") →
  check_word [("r", 0)] existent_letters nonexistent_letters w = Returned false ∧
  (w ∉ yields (word_retriever [("r", 0)] existent_letters nonexistent_letters rows)) ∧
  (w ∉ search [("r", 0)] existent_letters nonexistent_letters rows).
Proof.
  intros Hn H0 _.
  assert (check_word [("r", 0)] existent_letters nonexistent_letters w
          = Returned false) as Hc.
  { eapply check_word_nonexistent; [done|]. by eapply getitem_str_in. }
  assert (w ∉ qualifying [("r", 0)] existent_letters nonexistent_letters rows) as Hq.
  { rewrite elem_of_qualifying, <- check_word_true. intros [_ ?]. congruence. }
  split_and!; [done|by rewrite yields_word_retriever|].
  rewrite search_take. intros Hw. apply Hq.
  apply elem_of_take in Hw as (i & Hi & _). by eapply list_elem_of_lookup_2.
Qed.

Lemma known_letter_counts_as_occurrence_witness :
  "r" ∈ ["i"; "r"] ∧
  getitem "react" 0 = Returned "r" ∧
  (∀ i, 0 < i < 5 → getitem "react" i ≠ Returned "r") ∧
  check_word [("r", 0)] ["a"] ["i"; "r"] "react" = Returned false ∧
  ("react" ∉ yields (word_retriever [("r", 0)] ["a"] ["i"; "r"] corpus4)) ∧
  ("react" ∉ search [("r", 0)] ["a"] ["i"; "r"] corpus4).
Proof.
  assert ("r" ∈ ["i"; "r"]) as H1 by (right; left).
  assert (getitem "react" 0 = Returned "r") as H2 by reflexivity.
  assert (∀ i, 0 < i < 5 → getitem "react" i ≠ Returned "r") as H3.
  { intros i Hi.
    assert (i = 1 ∨ i = 2 ∨ i = 3 ∨ i = 4) as [-> | [-> | [-> | ->]]] by lia;
      vm_compute; discriminate. }
  split_and!; [exact H1|exact H2|exact H3|..];
    apply (known_letter_counts_as_occurrence ["a"] ["i"; "r"] corpus4 "react" H1 H2 H3).
Defined.

(** C6, as stated: one more nonexistent letter never adds a word to the
    result of the search.  With 201 qualifying rows the cap of 200 breaks
    this: marking [z] nonexistent removes the first row, and the row that
    was cut off before is displayed. *)
Lemma capped_search_not_monotone :
  ¬ (∀ (known_letters : list (string * Z))
       (existent_letters nonexistent_letters rows : list string) (l w : string),
       w ∈ search known_letters existent_letters (l :: nonexistent_letters) rows →
       w ∈ search known_letters existent_letters nonexistent_letters rows).
Proof.
  intros H. specialize (H [] [] [] corpus201 "z" "hyaaa").
  assert ("hyaaa" ∈ search [] [] ["z"] corpus201) as Hnew
    by (apply (bool_decide_unpack _); by vm_compute).
  assert ("hyaaa" ∉ search [] [] [] corpus201) as Hold
    by (apply (bool_decide_unpack _); by vm_compute).
  auto.
Qed.

(** C6, amended.  Adding a letter to the nonexistent list, at any place
    of the list and with the other clues and the rows fixed, never adds a
    word to what the generator yields, that is to the result before the
    cap of 200: the new sequence of yields is a subsequence of the old
    one, so every word yielded after the addition was yielded before. *)
Theorem nonexistent_monotone_before_cap (known_letters : list (string * Z))
    (existent_letters rows before after : list string) (l : string) :
  let old := word_retriever known_letters existent_letters (before ++ after) rows in
  let new := word_retriever known_letters existent_letters (before ++ l :: after) rows in
  yields new `sublist_of` yields old ∧
  (∀ w, w ∈ yields new → w ∈ yields old).
Proof.
  intros old new. subst old new. rewrite !yields_word_retriever.
  assert (qualifying known_letters existent_letters (before ++ l :: after) rows
          `sublist_of`
          qualifying known_letters existent_letters (before ++ after) rows) as Hs.
  { apply qualifying_nonexistent_mono. intros l'.
    rewrite !elem_of_app, elem_of_cons. tauto. }
  split; [done|]. intros w Hw. by eapply elem_of_sublist.
Qed.

(** C7.  [change_state] follows the cycle UNKNOWN, EXISTENT, NONEXISTENT,
    UNKNOWN: it moves a button that is UNKNOWN to EXISTENT, one that is
    EXISTENT to NONEXISTENT and one that is NONEXISTENT to UNKNOWN,
    keeping its letter, and a press of a button of the keyboard does this
    to that button; three presses of a button bring it, and the whole
    keyboard, back to where it started, from any of the three states; and
    after any sequence of presses and resets no letter is both in the
    list of existent letters and in the list of nonexistent letters. *)
Theorem classification_cycle :
  (next_state UNKNOWN = EXISTENT ∧
   next_state EXISTENT = NONEXISTENT ∧
   next_state NONEXISTENT = UNKNOWN) ∧
  (∀ l : string,
     change_state {| letter := l; letter_state := UNKNOWN |}
       = {| letter := l; letter_state := EXISTENT |} ∧
     change_state {| letter := l; letter_state := EXISTENT |}
       = {| letter := l; letter_state := NONEXISTENT |} ∧
     change_state {| letter := l; letter_state := NONEXISTENT |}
       = {| letter := l; letter_state := UNKNOWN |}) ∧
  (∀ b : LetterButton,
     letter (change_state b) = letter b ∧
     letter_state (change_state b) = next_state (letter_state b)) ∧
  (∀ (ls : list LetterButton) (i : nat) (b : LetterButton),
     ls !! i = Some b →
     handle ls (Press i) !! i =
       Some {| letter := letter b; letter_state := next_state (letter_state b) |}) ∧
  (∀ b : LetterButton, change_state (change_state (change_state b)) = b) ∧
  (∀ (ls : list LetterButton) (i : nat),
     handle (handle (handle ls (Press i)) (Press i)) (Press i) = ls) ∧
  (∀ (events : list event) (l : string),
     ¬ (l ∈ get_existent_letters (run events) ∧
        l ∈ get_nonexistent_letters (run events))).
Proof.
  split_and!; try done.
  - intros ls i b Hb. simpl. by rewrite list_lookup_alter_eq, Hb.
  - by intros [l []].
  - apply press_three_times.
  - intros events l. apply existent_nonexistent_disjoint.
    rewrite run_letters. apply keyboard_NoDup.
Qed.


(** C9, as stated: a corpus with a malformed row, such as a word that
    does not have exactly 5 letters, makes the search fail with an error.
    It does not: the four-letter row is skipped and the other rows are
    displayed. *)
Lemma malformed_row_raises_nothing :
  ¬ (∀ (rows : list string) (s : screen),
       (∃ w, w ∈ rows ∧ len w ≠ 5) →
       ∃ x, (search_words rows s).2 = Raised x).
Proof.
  intros H.
  destruct (H ["crane"; "abcd"; "trace"]
              {| entries := [""; ""; ""; ""; ""];
                 letters := LettersLayout_init;
                 children := [] |}) as [x Hx].
  - exists "abcd". split; [right; left|]. vm_compute. discriminate.
  - vm_compute in Hx. discriminate.
Qed.

(** C9, amended.  A row whose word does not have exactly 5 letters
    raises no error: [check_word] returns [False] on it, the generator
    behaves as if the row were not there, and with the five entries of the
    input layout the search ends without an exception on such a corpus. *)
Theorem malformed_row_is_skipped (known_letters : list (string * Z))
    (existent_letters nonexistent_letters rows1 rows2 : list string) (w : string) :
  len w ≠ 5 →
  check_word known_letters existent_letters nonexistent_letters w = Returned false ∧
  word_retriever known_letters existent_letters nonexistent_letters (rows1 ++ w :: rows2)
    = word_retriever known_letters existent_letters nonexistent_letters (rows1 ++ rows2) ∧
  (∀ s : screen, length (entries s) = 5%nat →
     (search_words (rows1 ++ w :: rows2) s).2 = Returned tt).
Proof.
  intros Hw.
  pose proof (check_word_length known_letters existent_letters nonexistent_letters w Hw)
    as Hc.
  split_and!; [done|by apply word_retriever_skip|].
  intros s Hs. unfold search_words, display_words.
  destruct (display_loop _ _ _) as [[labels g] r] eqn:Hd. simpl.
  change r with (labels, g, r).2. rewrite <- Hd.
  apply display_loop_ending, ending_word_retriever.
  intros l i. by apply get_known_letters_in_range.
Qed.

Lemma malformed_row_is_skipped_witness :
  len "abcd" ≠ 5 ∧
  check_word [("r", 1)] ["a"] ["i"] "abcd" = Returned false ∧
  word_retriever [("r", 1)] ["a"] ["i"] (["crane"] ++ "abcd" :: ["trace"])
    = word_retriever [("r", 1)] ["a"] ["i"] (["crane"] ++ ["trace"]) ∧
  (∀ s : screen, length (entries s) = 5%nat →
     (search_words (["crane"] ++ "abcd" :: ["trace"]) s).2 = Returned tt).
Proof.
  assert (len "abcd" ≠ 5) as H by (vm_compute; discriminate).
  split; [exact H|].
  exact (malformed_row_is_skipped [("r", 1)] ["a"] ["i"] ["crane"] ["trace"] "abcd" H).
Defined.

(** C10.  When one letter is in the existent list and in the
    nonexistent list, [check_word] returns [False] for every word, so the
    generator yields nothing and ends without an exception, and the
    search displays no word. *)
Theorem contradictory_letter_empty_result (known_letters : list (string * Z))
    (existent_letters nonexistent_letters : list string) (l : string) :
  l ∈ existent_letters →
  l ∈ nonexistent_letters →
  (∀ w, check_word known_letters existent_letters nonexistent_letters w
        = Returned false) ∧
  (∀ rows displayed,
     display_words displayed
       (word_retriever known_letters existent_letters nonexistent_letters rows)
     = ([], StopIteration, Returned tt)) ∧
  (∀ rows, search known_letters existent_letters nonexistent_letters rows = []).
Proof.
  intros He Hn.
  assert (∀ w, check_word known_letters existent_letters nonexistent_letters w
               = Returned false) as Hc.
  { intros w. destruct (str_in l w) eqn:Hin.
    - by eapply check_word_nonexistent.
    - by eapply check_word_existent. }
  split_and!; [done| |].
  - intros rows displayed. by rewrite word_retriever_all_false.
  - intros rows. unfold search. by rewrite word_retriever_all_false.
Qed.

Lemma contradictory_letter_empty_result_witness :
  "a" ∈ ["a"; "c"] ∧
  "a" ∈ ["i"; "a"] ∧
  (∀ w, check_word [("r", 1)] ["a"; "c"] ["i"; "a"] w = Returned false) ∧
  (∀ rows displayed,
     display_words displayed (word_retriever [("r", 1)] ["a"; "c"] ["i"; "a"] rows)
     = ([], StopIteration, Returned tt)) ∧
  (∀ rows, search [("r", 1)] ["a"; "c"] ["i"; "a"] rows = []).
Proof.
  assert ("a" ∈ ["a"; "c"]) as H1 by left.
  assert ("a" ∈ ["i"; "a"]) as H2 by (right; left).
  split_and!; [exact H1|exact H2|..];
    apply (contradictory_letter_empty_result [("r", 1)] ["a"; "c"] ["i"; "a"] "a" H1 H2).
Defined.

(** * Further properties of the filter *)

Section filter.
Implicit Types (k : list (string * Z)) (e n rows : list string) (w l : string).

Lemma getitem_returned_str_in w i l :
  getitem w i = Returned l → str_in l w = true.
Proof.
  intros H. destruct (getitem_returned w i) as [c Hc]; [by eapply getitem_in_range|].
  rewrite Hc in H. injection H as <-. by eapply getitem_str_in.
Qed.

Lemma getitem_returned_length w i l :
  getitem w i = Returned l → String.length l = 1%nat.
Proof.
  intros H. destruct (getitem_returned w i) as [c Hc]; [by eapply getitem_in_range|].
  rewrite Hc in H. by injection H as <-.
Qed.

Lemma getitem_out_of_range w i :
  ¬ in_range (len w) i → getitem w i = Raised IndexError.
Proof.
  intros Hi. destruct (getitem w i) as [c|[]] eqn:Hg; [|done].
  destruct Hi. by eapply getitem_in_range.
Qed.

(** [known_loop] raises exactly when it reaches a position outside the
    word: every pair before it matches the word. *)
Lemma known_loop_raised_iff k w :
  known_loop k w = Raised IndexError ↔
  ∃ k1 l i k2, k = (k1 ++ (l, i) :: k2)%list ∧
    (∀ l' i', (l', i') ∈ k1 → getitem w i' = Returned l') ∧
    ¬ in_range (len w) i.
Proof.
  induction k as [|[l0 i0] k IH]; simpl.
  - split; [discriminate|]. intros (k1 & l & i & k2 & Hk & _).
    by destruct k1.
  - split.
    + destruct (getitem w i0) as [c|x] eqn:Hg.
      * destruct (String.eqb_spec c l0) as [->|Hne]; simpl; [|discriminate].
        intros H. apply IH in H as (k1 & l & i & k2 & -> & Hm & Hi).
        exists ((l0, i0) :: k1), l, i, k2. split_and!; [done| |done].
        intros l' i' Hin. apply elem_of_cons in Hin as [[= -> ->]|Hin]; auto.
      * intros _. exists [], l0, i0, k. split_and!; [done| |by eapply getitem_raised].
        intros ? ? Hin. inversion Hin.
    + intros (k1 & l & i & k2 & Hk & Hm & Hi). destruct k1 as [|[l1 i1] k1].
      * injection Hk as -> -> ->. by rewrite getitem_out_of_range.
      * injection Hk as -> -> ->.
        rewrite (Hm l1 i1) by left. rewrite String.eqb_refl. simpl.
        apply IH. exists k1, l, i, k2. split_and!; [done| |done].
        intros l' i' Hin. apply Hm. by right.
Qed.

Lemma passes_app k k' e e' n n' w :
  passes (k ++ k') (e ++ e') (n ++ n') w = true ↔
  passes k e n w = true ∧ passes k' e' n' w = true.
Proof.
  rewrite !passes_true. unfold qualifies.
  setoid_rewrite elem_of_app. split.
  - intros (Hl & He & Hn & Hk). split; split_and!; auto.
  - intros [(Hl & He & Hn & Hk) (_ & He' & Hn' & Hk')].
    split_and!; [done|intros l' [?|?]; auto..|intros l' i' [?|?]; auto].
Qed.

Lemma qualifying_nil_of k e n rows :
  (∀ w, ¬ qualifies k e n w) → qualifying k e n rows = [].
Proof.
  intros H. apply qualifying_none. intros w.
  destruct (passes k e n w) eqn:Hp; [|done]. apply passes_true in Hp. by destruct (H w).
Qed.

Lemma display_loop_raised g (m : Z) (ch : list string) x :
  0 <= m < 200 →
  (display_loop g m ch).2 = Raised x ↔
  ending g = Raised x ∧ (Z.of_nat (length (yields g)) < 200 - m).
Proof.
  revert m ch. induction g as [|w g IH|x']; intros m ch Hm; simpl.
  - split; [discriminate|]. by intros [? _].
  - destruct (Z.geb_spec (m + 1) 200) as [Hge|Hlt]; simpl.
    + split; [discriminate|]. intros [_ ?]. lia.
    + rewrite IH by lia. split; intros [? ?]; split; try done; lia.
  - split; [intros [= ->]|intros [[= ->] _]]; [split; [done|lia]|done].
Qed.

End filter.

(** X1.  [check_word] raises [IndexError] exactly on a five-letter word
    that passes the existent and the nonexistent check and for which the
    loop over the known letters reaches a position outside [-5, 5) after
    pairs that all match. *)
Theorem check_word_raises_iff (known_letters : list (string * Z))
    (existent_letters nonexistent_letters : list string) (w : string) :
  check_word known_letters existent_letters nonexistent_letters w = Raised IndexError
  ↔ len w = 5 ∧
    (∀ l, l ∈ existent_letters → str_in l w = true) ∧
    (∀ l, l ∈ nonexistent_letters → str_in l w = false) ∧
    ∃ k1 l i k2, known_letters = (k1 ++ (l, i) :: k2)%list ∧
      (∀ l' i', (l', i') ∈ k1 → getitem w i' = Returned l') ∧
      ¬ in_range 5 i.
Proof.
  unfold check_word.
  rewrite <- existent_loop_true, <- nonexistent_loop_true.
  destruct (Z.eqb_spec (len w) 5) as [Hlen|Hlen]; simpl;
    [|split; [discriminate|tauto]].
  destruct (existent_loop existent_letters w); simpl;
    [|split; [discriminate|intuition discriminate]].
  destruct (nonexistent_loop nonexistent_letters w); simpl;
    [|split; [discriminate|intuition discriminate]].
  rewrite known_loop_raised_iff, Hlen. tauto.
Qed.

(** X2.  The clue lists act as sets: two triples of lists with the same
    elements give the same yields and the same displayed words, whatever
    the order and the repetitions in the lists. *)
Theorem clue_lists_act_as_sets (k k' : list (string * Z))
    (e e' n n' rows : list string) :
  (∀ x, x ∈ k ↔ x ∈ k') →
  (∀ l, l ∈ e ↔ l ∈ e') →
  (∀ l, l ∈ n ↔ l ∈ n') →
  yields (word_retriever k e n rows) = yields (word_retriever k' e' n' rows) ∧
  search k e n rows = search k' e' n' rows.
Proof.
  intros Hk He Hn. rewrite !search_take, !yields_word_retriever.
  assert (qualifying k e n rows = qualifying k' e' n' rows) as ->; [|done].
  apply list_filter_iff. intros w. rewrite !passes_true. unfold qualifies.
  setoid_rewrite Hk. setoid_rewrite He. setoid_rewrite Hn. done.
Qed.

Lemma clue_lists_act_as_sets_witness :
  (∀ x, x ∈ [("r", 1); ("e", 4)] ↔ x ∈ [("e", 4); ("r", 1); ("e", 4)]) ∧
  (∀ l, l ∈ ["a"; "c"] ↔ l ∈ ["c"; "a"; "c"]) ∧
  (∀ l, l ∈ ["i"] ↔ l ∈ ["i"; "i"]) ∧
  yields (word_retriever [("r", 1); ("e", 4)] ["a"; "c"] ["i"] corpus4) =
    yields (word_retriever [("e", 4); ("r", 1); ("e", 4)] ["c"; "a"; "c"] ["i"; "i"] corpus4) ∧
  search [("r", 1); ("e", 4)] ["a"; "c"] ["i"] corpus4 =
    search [("e", 4); ("r", 1); ("e", 4)] ["c"; "a"; "c"] ["i"; "i"] corpus4.
Proof.
  assert (∀ x, x ∈ [("r", 1); ("e", 4)] ↔ x ∈ [("e", 4); ("r", 1); ("e", 4)]) as H1
    by (intros x; rewrite !elem_of_cons, !elem_of_nil; tauto).
  assert (∀ l, l ∈ ["a"; "c"] ↔ l ∈ ["c"; "a"; "c"]) as H2
    by (intros x; rewrite !elem_of_cons, !elem_of_nil; tauto).
  assert (∀ l, l ∈ ["i"] ↔ l ∈ ["i"; "i"]) as H3
    by (intros x; rewrite !elem_of_cons, !elem_of_nil; tauto).
  split_and!; [exact H1|exact H2|exact H3|..];
    apply (clue_lists_act_as_sets _ _ _ _ _ _ corpus4 H1 H2 H3).
Defined.

(** X3.  Clues accumulate: what the generator yields for the clues of
    two rounds together is what it yields for the clues of the second
    round on the yields of the first round. *)
Theorem clues_accumulate (k k' : list (string * Z)) (e e' n n' rows : list string) :
  yields (word_retriever (k ++ k') (e ++ e') (n ++ n') rows) =
  yields (word_retriever k' e' n' (yields (word_retriever k e n rows))).
Proof.
  rewrite !yields_word_retriever. unfold qualifying.
  rewrite list_filter_filter. apply list_filter_iff. intros w.
  rewrite passes_app. tauto.
Qed.

(** X4.  A letter that is known at some position and is also in the
    nonexistent list empties the result: nothing is yielded and nothing
    is displayed, for every letter and every position. *)
Theorem known_and_nonexistent_empty (k : list (string * Z))
    (e n rows : list string) (l : string) (i : Z) :
  (l, i) ∈ k → l ∈ n →
  yields (word_retriever k e n rows) = [] ∧ search k e n rows = [].
Proof.
  intros Hk Hn. rewrite search_take, yields_word_retriever.
  assert (qualifying k e n rows = []) as ->; [|done].
  apply qualifying_nil_of. intros w (_ & _ & Hno & Hkn).
  specialize (Hkn l i Hk). apply getitem_returned_str_in in Hkn.
  rewrite (Hno l Hn) in Hkn. discriminate.
Qed.

Lemma known_and_nonexistent_empty_witness :
  ("e", 4) ∈ [("r", 1); ("e", 4)] ∧ "e" ∈ ["i"; "e"] ∧
  yields (word_retriever [("r", 1); ("e", 4)] ["a"] ["i"; "e"] corpus4) = [] ∧
  search [("r", 1); ("e", 4)] ["a"] ["i"; "e"] corpus4 = [].
Proof.
  assert (("e", 4) ∈ [("r", 1); ("e", 4)]) as H1 by (right; left).
  assert ("e" ∈ ["i"; "e"]) as H2 by (right; left).
  split_and!; [exact H1|exact H2|..];
    apply (known_and_nonexistent_empty _ ["a"] _ corpus4 "e" 4 H1 H2).
Defined.

(** X5.  Two different known letters for one position empty the result. *)
Theorem two_letters_one_position_empty (k : list (string * Z))
    (e n rows : list string) (l1 l2 : string) (i : Z) :
  (l1, i) ∈ k → (l2, i) ∈ k → l1 ≠ l2 →
  yields (word_retriever k e n rows) = [] ∧ search k e n rows = [].
Proof.
  intros H1 H2 Hne. rewrite search_take, yields_word_retriever.
  assert (qualifying k e n rows = []) as ->; [|done].
  apply qualifying_nil_of. intros w (_ & _ & _ & Hkn).
  pose proof (Hkn l1 i H1). pose proof (Hkn l2 i H2). congruence.
Qed.

Lemma two_letters_one_position_empty_witness :
  ("r", 1) ∈ [("r", 1); ("l", 1)] ∧ ("l", 1) ∈ [("r", 1); ("l", 1)] ∧ "r" ≠ "l" ∧
  yields (word_retriever [("r", 1); ("l", 1)] [] [] corpus4) = [] ∧
  search [("r", 1); ("l", 1)] [] [] corpus4 = [].
Proof.
  assert (("r", 1) ∈ [("r", 1); ("l", 1)]) as H1 by left.
  assert (("l", 1) ∈ [("r", 1); ("l", 1)]) as H2 by (right; left).
  assert ("r" ≠ "l") as H3 by discriminate.
  split_and!; [exact H1|exact H2|exact H3|..];
    apply (two_letters_one_position_empty _ [] [] corpus4 "r" "l" 1 H1 H2 H3).
Defined.

(** X6.  A known text that is not exactly one character (two letters
    pasted into an entry, for instance) matches no word: the result is
    empty. *)
Theorem long_known_text_empty (k : list (string * Z))
    (e n rows : list string) (l : string) (i : Z) :
  (l, i) ∈ k → String.length l ≠ 1%nat →
  yields (word_retriever k e n rows) = [] ∧ search k e n rows = [].
Proof.
  intros Hk Hl. rewrite search_take, yields_word_retriever.
  assert (qualifying k e n rows = []) as ->; [|done].
  apply qualifying_nil_of. intros w (_ & _ & _ & Hkn).
  specialize (Hkn l i Hk). by apply getitem_returned_length in Hkn.
Qed.

Lemma long_known_text_empty_witness :
  ("cr", 0) ∈ [("cr", 0)] ∧ String.length "cr" ≠ 1%nat ∧
  yields (word_retriever [("cr", 0)] [] [] corpus4) = [] ∧
  search [("cr", 0)] [] [] corpus4 = [].
Proof.
  assert (("cr", 0) ∈ [("cr", 0)]) as H1 by left.
  assert (String.length "cr" ≠ 1%nat) as H2 by discriminate.
  split_and!; [exact H1|exact H2|..];
    apply (long_known_text_empty _ [] [] corpus4 "cr" 0 H1 H2).
Defined.

(** X7.  The generator works row by row: the yields for two lists of
    rows, one after the other, are the yields for the first followed by
    the yields for the second. *)
Theorem yields_of_appended_rows (k : list (string * Z)) (e n rows1 rows2 : list string) :
  yields (word_retriever k e n (rows1 ++ rows2)) =
  (yields (word_retriever k e n rows1) ++ yields (word_retriever k e n rows2))%list.
Proof.
  rewrite !yields_word_retriever. apply filter_app.
Qed.

(** X8.  [display_words] ends with the exception of the generator
    exactly when the generator raises before its 200th yield; the words
    yielded before the exception are then the labels.  An exception
    behind 200 yields is never reached. *)
Theorem display_words_exception (children : list string) (g : generator) (x : exn) :
  ((display_words children g).2 = Raised x ↔
   ending g = Raised x ∧ (length (yields g) < 200)%nat) ∧
  ((display_words children g).2 = Raised x →
   (display_words children g).1.1 = yields g).
Proof.
  assert ((display_words children g).2 = Raised x ↔
          ending g = Raised x ∧ (length (yields g) < 200)%nat) as Hiff.
  { unfold display_words. rewrite display_loop_raised by lia.
    split; intros [? ?]; split; try done; lia. }
  split; [done|]. intros H. apply Hiff in H as [_ Hlen].
  rewrite display_words_labels. apply take_ge. lia.
Qed.

(** * Further properties of the clue collectors and the keyboard *)

Section collectors.
Implicit Types (ls : list LetterButton) (b : LetterButton) (l : string).

Lemma known_letters_from_spec (index : Z) (entries : list string) l i :
  (l, i) ∈ known_letters_from index entries ↔
  index <= i ∧
  ∃ text, entries !! Z.to_nat (i - index) = Some text ∧ text ≠ "" ∧ l = lower text.
Proof.
  revert index. induction entries as [|entry rest IH]; intros m; simpl.
  - split; [intros H; inversion H|]. by intros (_ & text & H & _).
  - assert ((l, i) ∈ known_letters_from (m + 1) rest ↔
            m < i ∧ ∃ text, (entry :: rest) !! Z.to_nat (i - m) = Some text ∧
                            text ≠ "" ∧ l = lower text) as Hrest.
    { rewrite IH. split.
      - intros (Hi & text & Hl & Ht). split; [lia|]. exists text. split; [|done].
        replace (Z.to_nat (i - m)) with (S (Z.to_nat (i - (m + 1)))) by lia. done.
      - intros (Hi & text & Hl & Ht). split; [lia|]. exists text. split; [|done].
        replace (Z.to_nat (i - m)) with (S (Z.to_nat (i - (m + 1)))) in Hl by lia.
        done. }
    destruct (String.eqb_spec entry "") as [->|Hne]; simpl.
    + rewrite Hrest. split.
      * intros (Hi & H). split; [lia|done].
      * intros (Hi & text & Hl & Ht & Hlow).
        destruct (decide (i = m)) as [->|]; [|split; [lia|eauto]].
        replace (Z.to_nat (m - m)) with 0%nat in Hl by lia.
        simpl in Hl. congruence.
    + rewrite elem_of_cons, Hrest. split.
      * intros [[= -> ->]|(Hi & H)]; [|split; [lia|done]].
        split; [lia|]. exists entry.
        replace (Z.to_nat (m - m)) with 0%nat by lia. done.
      * intros (Hi & text & Hl & Ht & Hlow).
        destruct (decide (i = m)) as [->|]; [|right; split; [lia|eauto]].
        replace (Z.to_nat (m - m)) with 0%nat in Hl by lia.
        simpl in Hl. left. congruence.
Qed.

Lemma known_letters_from_sorted (index : Z) (entries : list string) :
  StronglySorted Z.lt (map snd (known_letters_from index entries)).
Proof.
  revert index. induction entries as [|entry rest IH]; intros m; simpl.
  - constructor.
  - destruct (negb (entry =? "")%string); [|apply IH].
    simpl. constructor; [apply IH|].
    apply Forall_forall. intros i Hi.
    apply list_elem_of_fmap in Hi as ([l i'] & -> & Hin).
    apply known_letters_from_range in Hin. simpl. lia.
Qed.

Lemma known_letters_from_length (index : Z) (entries : list string) :
  (length (known_letters_from index entries) <= length entries)%nat.
Proof.
  revert index. induction entries as [|entry rest IH]; intros m; simpl; [lia|].
  specialize (IH (m + 1)). destruct (negb _); simpl; lia.
Qed.

Lemma get_existent_letters_sublist ls :
  get_existent_letters ls `sublist_of` map letter ls.
Proof.
  induction ls as [|b ls IH]; simpl; [done|].
  destruct (decide _); by constructor.
Qed.

Lemma get_nonexistent_letters_sublist ls :
  get_nonexistent_letters ls `sublist_of` map letter ls.
Proof.
  induction ls as [|b ls IH]; simpl; [done|].
  destruct (decide _); by constructor.
Qed.

Lemma reset_existent ls : get_existent_letters (map reset_letter ls) = [].
Proof. induction ls as [|b ls IH]; simpl; done. Qed.

Lemma reset_nonexistent ls : get_nonexistent_letters (map reset_letter ls) = [].
Proof. induction ls as [|b ls IH]; simpl; done. Qed.

Lemma reset_letters_eq ls ls' :
  map letter ls = map letter ls' → map reset_letter ls = map reset_letter ls'.
Proof.
  revert ls'. induction ls as [|b ls IH]; intros [|b' ls']; simpl; try done.
  intros [= Hb Hls]. unfold reset_letter at 1 3. rewrite Hb. f_equal. by apply IH.
Qed.

Lemma run_snoc (events : list event) (ev : event) :
  run (events ++ [ev]) = handle (run events) ev.
Proof. unfold run. by rewrite fold_left_app. Qed.

Lemma presses_add_3 (n : nat) b : presses (3 + n) b = presses n b.
Proof. simpl. by destruct (presses n b) as [l []]. Qed.

Lemma presses_mod_3 (n : nat) b : presses n b = presses (n `mod` 3) b.
Proof.
  induction (lt_wf n) as [n _ IH].
  destruct (decide (n < 3)%nat) as [Hlt|Hge]; [by rewrite Nat.mod_small|].
  replace n with (3 + (n - 3))%nat at 1 by lia.
  rewrite presses_add_3, (IH (n - 3)%nat) by lia. f_equal.
  replace n with ((n - 3) + 1 * 3)%nat at 2 by lia.
  by rewrite Nat.Div0.mod_add.
Qed.

Lemma qualifying_no_clues_filter (rows : list string) :
  qualifying [] [] [] rows = filter (λ w, len w = 5) rows.
Proof.
  apply list_filter_iff. intros w. rewrite passes_true. unfold qualifies. split.
  - by intros [? _].
  - intros Hw. split_and!; [done|intros ? Hx; inversion Hx..|].
    intros ? ? Hx. inversion Hx.
Qed.

Lemma known_letters_of_empty_entries (index : Z) (entries : list string) :
  known_letters_from index (map (λ _, "") entries) = [].
Proof.
  revert index. induction entries as [|entry rest IH]; intros m; simpl; [done|].
  apply IH.
Qed.

Lemma elem_of_pressed ls (i : nat) b b' :
  ls !! i = Some b →
  b' ∈ alter change_state i ls ↔
  b' = change_state b ∨ ∃ j : nat, j ≠ i ∧ ls !! j = Some b'.
Proof.
  intros Hb. rewrite list_elem_of_lookup. split.
  - intros [j Hj]. destruct (decide (j = i)) as [->|Hne].
    + rewrite list_lookup_alter_eq, Hb in Hj. left. by injection Hj as <-.
    + rewrite list_lookup_alter_ne in Hj by done. right. eauto.
  - intros [->|(j & Hne & Hj)].
    + exists i. by rewrite list_lookup_alter_eq, Hb.
    + exists j. by rewrite list_lookup_alter_ne.
Qed.

Lemma other_button_other_letter ls (i j : nat) b b' :
  NoDup (map letter ls) → ls !! i = Some b → ls !! j = Some b' → j ≠ i →
  letter b' ≠ letter b.
Proof.
  intros Hnd Hb Hb' Hne Heq. apply Hne.
  eapply (NoDup_lookup (map letter ls) j i (letter b)); [done| |].
  - change (map letter ls) with (letter <$> ls).
    rewrite list_lookup_fmap, Hb'. simpl. by rewrite Heq.
  - change (map letter ls) with (letter <$> ls).
    by rewrite list_lookup_fmap, Hb.
Qed.

End collectors.

(** X9.  [get_known_letters] returns exactly the pairs of a position
    whose entry is not empty and the lower-cased text of that entry. *)
Theorem get_known_letters_spec (entries : list string) (l : string) (i : Z) :
  (l, i) ∈ get_known_letters entries ↔
  0 <= i ∧ ∃ text, entries !! Z.to_nat i = Some text ∧ text ≠ "" ∧ l = lower text.
Proof.
  unfold get_known_letters. rewrite known_letters_from_spec.
  by replace (i - 0) with i by lia.
Qed.

(** X10.  The known letters come in strictly increasing order of
    position, so no position occurs twice, and there are at most as many
    of them as there are entries. *)
Theorem get_known_letters_positions (entries : list string) :
  StronglySorted Z.lt (map snd (get_known_letters entries)) ∧
  NoDup (map snd (get_known_letters entries)) ∧
  (length (get_known_letters entries) <= length entries)%nat.
Proof.
  pose proof (known_letters_from_sorted 0 entries) as Hs.
  split_and!; [done| |apply known_letters_from_length].
  unfold get_known_letters. revert Hs.
  generalize (map snd (known_letters_from 0 entries)) as ps.
  induction ps as [|p ps IH]; intros Hs; [constructor|].
  apply StronglySorted_inv in Hs as [Hs Hp]. apply NoDup_cons. split; [|by apply IH].
  intros Hin. rewrite Forall_forall in Hp. specialize (Hp p Hin). lia.
Qed.

(** X11.  After any presses and resets the existent letters and the
    nonexistent letters are each a subsequence of the 26 letters in
    keyboard order, so neither list repeats a letter. *)
Theorem collected_letters_in_keyboard_order (events : list event) :
  get_existent_letters (run events)
    `sublist_of` chars "qwertyuiopasdfghjklzxcvbnm" ∧
  get_nonexistent_letters (run events)
    `sublist_of` chars "qwertyuiopasdfghjklzxcvbnm" ∧
  NoDup (get_existent_letters (run events)) ∧
  NoDup (get_nonexistent_letters (run events)).
Proof.
  pose proof (get_existent_letters_sublist (run events)) as He.
  pose proof (get_nonexistent_letters_sublist (run events)) as Hn.
  pose proof keyboard_NoDup as Hnd.
  rewrite run_letters in He, Hn. rewrite keyboard_letters in He, Hn, Hnd.
  split_and!; [done|done|by eapply sublist_NoDup..].
Qed.

(** X12.  A reset brings the keyboard back to its initial state,
    whatever happened before: every button is UNKNOWN and both letter
    lists are empty. *)
Theorem reset_restores_keyboard (events : list event) :
  run (events ++ [ResetGame]) = LettersLayout_init ∧
  get_existent_letters (run (events ++ [ResetGame])) = [] ∧
  get_nonexistent_letters (run (events ++ [ResetGame])) = [].
Proof.
  rewrite run_snoc. simpl. split_and!; [|apply reset_existent|apply reset_nonexistent].
  rewrite (reset_letters_eq _ LettersLayout_init) by apply run_letters.
  reflexivity.
Qed.

(** X13.  A press of a button of a keyboard without a repeated letter
    moves its letter between the lists and touches no other letter: the
    letter is existent afterwards exactly when the button was UNKNOWN,
    nonexistent afterwards exactly when the button was EXISTENT, and
    every other letter is in a list after the press exactly when it was
    before. *)
Theorem press_moves_letter (ls : list LetterButton) (i : nat)
    (b : LetterButton) (l : string) :
  NoDup (map letter ls) →
  ls !! i = Some b →
  (l ∈ get_existent_letters (handle ls (Press i)) ↔
   (l = letter b ∧ letter_state b = UNKNOWN) ∨
   (l ≠ letter b ∧ l ∈ get_existent_letters ls)) ∧
  (l ∈ get_nonexistent_letters (handle ls (Press i)) ↔
   (l = letter b ∧ letter_state b = EXISTENT) ∨
   (l ≠ letter b ∧ l ∈ get_nonexistent_letters ls)).
Proof.
  intros Hnd Hb. simpl.
  rewrite !elem_of_get_existent_letters, !elem_of_get_nonexistent_letters.
  split; split.
  - intros (b' & Hin & <- & Hs). apply (elem_of_pressed _ _ _ _ Hb) in Hin as [->|(j & Hj & Hl)].
    + left. split; [done|]. simpl in Hs. by destruct (letter_state b).
    + right. split; [by eapply other_button_other_letter|].
      exists b'. split_and!; [by eapply list_elem_of_lookup_2|done..].
  - intros [[-> Hs]|(Hne & b' & Hin & <- & Hs)].
    + exists (change_state b). split_and!; [|done|by simpl; rewrite Hs].
      apply (elem_of_pressed _ _ _ _ Hb). by left.
    + exists b'. split_and!; [|done..].
      apply (elem_of_pressed _ _ _ _ Hb). right.
      apply list_elem_of_lookup in Hin as [j Hj]. exists j. split; [|done].
      intros ->. rewrite Hb in Hj. by injection Hj as ->.
  - intros (b' & Hin & <- & Hs). apply (elem_of_pressed _ _ _ _ Hb) in Hin as [->|(j & Hj & Hl)].
    + left. split; [done|]. simpl in Hs. by destruct (letter_state b).
    + right. split; [by eapply other_button_other_letter|].
      exists b'. split_and!; [by eapply list_elem_of_lookup_2|done..].
  - intros [[-> Hs]|(Hne & b' & Hin & <- & Hs)].
    + exists (change_state b). split_and!; [|done|by simpl; rewrite Hs].
      apply (elem_of_pressed _ _ _ _ Hb). by left.
    + exists b'. split_and!; [|done..].
      apply (elem_of_pressed _ _ _ _ Hb). right.
      apply list_elem_of_lookup in Hin as [j Hj]. exists j. split; [|done].
      intros ->. rewrite Hb in Hj. by injection Hj as ->.
Qed.

Lemma press_moves_letter_witness :
  let b := {| letter := "w"; letter_state := UNKNOWN |} in
  NoDup (map letter LettersLayout_init) ∧
  LettersLayout_init !! 1%nat = Some b ∧
  ("w" ∈ get_existent_letters (handle LettersLayout_init (Press 1)) ↔
   ("w" = letter b ∧ letter_state b = UNKNOWN) ∨
   ("w" ≠ letter b ∧ "w" ∈ get_existent_letters LettersLayout_init)) ∧
  ("w" ∈ get_nonexistent_letters (handle LettersLayout_init (Press 1)) ↔
   ("w" = letter b ∧ letter_state b = EXISTENT) ∨
   ("w" ≠ letter b ∧ "w" ∈ get_nonexistent_letters LettersLayout_init)).
Proof.
  intros b.
  assert (LettersLayout_init !! 1%nat = Some b) as H by reflexivity.
  split_and!; [exact keyboard_NoDup|exact H|..];
    apply (press_moves_letter LettersLayout_init 1 b "w" keyboard_NoDup H).
Defined.

(** X14.  The state of a new button after [n] presses depends on [n]
    modulo 3 only: UNKNOWN, EXISTENT, NONEXISTENT for the remainders 0,
    1, 2; the letter of the button never changes. *)
Theorem state_after_presses (text : string) (n : nat) :
  letter (presses n (new_LetterButton text)) = lower text ∧
  letter_state (presses n (new_LetterButton text)) =
    match (n `mod` 3)%nat with
    | O => UNKNOWN
    | S O => EXISTENT
    | _ => NONEXISTENT
    end.
Proof.
  rewrite presses_mod_3.
  assert (n `mod` 3 < 3)%nat as Hlt by (apply Nat.mod_upper_bound; lia).
  destruct (n `mod` 3)%nat as [|[|[|r]]]; simpl; try done. lia.
Qed.

(** X15.  After [reset_game] the three clue lists are empty, and the
    next search displays the first 200 five-letter rows and ends without
    an exception. *)
Theorem search_after_reset_game (content : string) (rows : list string) (s : screen) :
  let s' := reset_game content s in
  children s' = load_starting_words content ∧
  get_known_letters (entries s') = [] ∧
  get_existent_letters (letters s') = [] ∧
  get_nonexistent_letters (letters s') = [] ∧
  children (search_words rows s').1 = take 200 (filter (λ w, len w = 5) rows) ∧
  (search_words rows s').2 = Returned tt.
Proof.
  intros s'.
  assert (get_known_letters (entries s') = []) as Hk
    by apply known_letters_of_empty_entries.
  assert (get_existent_letters (letters s') = []) as He by apply reset_existent.
  assert (get_nonexistent_letters (letters s') = []) as Hn by apply reset_nonexistent.
  split_and!; try done.
  - rewrite search_words_children, Hk, He, Hn, search_take.
    by rewrite qualifying_no_clues_filter.
  - unfold search_words. rewrite Hk, He, Hn. unfold display_words.
    destruct (display_loop _ _ _) as [[labels0 g] r] eqn:Hd. simpl.
    change r with (labels0, g, r).2. rewrite <- Hd.
    apply display_loop_ending, ending_word_retriever.
    intros l i Hin. inversion Hin.
Qed.

(** * The sizes of the layout *)

(** X16.  The spacing is at most 40, and five inputs of width 35 with
    four spacings between them never take more than the width of the
    window. *)
Theorem get_spacing_fits (Window_width : Z) :
  get_spacing Window_width <= 40 ∧
  5 * 35 + 4 * get_spacing Window_width <= Window_width.
Proof.
  unfold get_spacing.
  pose proof (Z.div_mod (Window_width - 5 * 35) 4 ltac:(lia)) as Hd.
  pose proof (Z.mod_pos_bound (Window_width - 5 * 35) 4 ltac:(lia)) as Hm.
  rewrite Z.gtb_ltb. destruct (Z.ltb_spec 40 ((Window_width - 5 * 35) / 4)); lia.
Qed.

(** X17.  The spacing grows with the width of the window; it is 40 from
    the width 335 on, and it is negative for a window narrower than the
    five inputs (175). *)
Theorem get_spacing_thresholds (Window_width : Z) :
  (get_spacing Window_width = 40 ↔ 335 <= Window_width) ∧
  (get_spacing Window_width < 0 ↔ Window_width < 175) ∧
  (∀ wider, Window_width <= wider → get_spacing Window_width <= get_spacing wider).
Proof.
  unfold get_spacing.
  pose proof (Z.div_mod (Window_width - 5 * 35) 4 ltac:(lia)) as Hd.
  pose proof (Z.mod_pos_bound (Window_width - 5 * 35) 4 ltac:(lia)) as Hm.
  rewrite Z.gtb_ltb.
  split_and!.
  - destruct (Z.ltb_spec 40 ((Window_width - 5 * 35) / 4)); lia.
  - destruct (Z.ltb_spec 40 ((Window_width - 5 * 35) / 4)); lia.
  - intros wider Hw.
    pose proof (Z.div_mod (wider - 5 * 35) 4 ltac:(lia)) as Hd'.
    pose proof (Z.mod_pos_bound (wider - 5 * 35) 4 ltac:(lia)) as Hm'.
    rewrite Z.gtb_ltb.
    destruct (Z.ltb_spec 40 ((Window_width - 5 * 35) / 4));
      destruct (Z.ltb_spec 40 ((wider - 5 * 35) / 4)); lia.
Qed.

(** X18.  The height of the panel is the smaller of the height of the
    displayer and the height of the main panel less 60: the panel never
    reaches into the last 60 units of the main panel and is never higher
    than the words it shows. *)
Theorem get_height_min (words_displayer_height main_panel_height : Z) :
  get_height words_displayer_height main_panel_height =
    Z.min words_displayer_height (main_panel_height - 60) ∧
  get_height words_displayer_height main_panel_height <= main_panel_height - 60 ∧
  get_height words_displayer_height main_panel_height <= words_displayer_height.
Proof.
  unfold get_height. rewrite Z.gtb_ltb.
  destruct (Z.ltb_spec (main_panel_height - 60) words_displayer_height); lia.
Qed.

(** * The dark mode *)

Section dark_mode.

Lemma widget_induction (P : widget → Prop) :
  (∀ m ks, Forall P ks → P (Widget m ks)) → ∀ w, P w.
Proof.
  intros H. fix IH 1. intros [m ks]. apply H.
  induction ks as [|k ks IHks]; constructor; [apply IH|apply IHks].
Qed.

Lemma toggle_night_mode_twice (m : bool) :
  toggle_night_mode (toggle_night_mode m) = m.
Proof. by destruct m. Qed.

Lemma search_child_twice (w : widget) : search_child (search_child w) = w.
Proof.
  induction w as [m ks IH] using widget_induction. simpl. f_equal.
  - destruct m as [m|]; [|done]. by rewrite toggle_night_mode_twice.
  - induction IH as [|k ks Hk _ IHks]; simpl; [done|]. by rewrite Hk, IHks.
Qed.

Lemma search_for_night_mode_twice (ws : list widget) :
  search_for_night_mode (search_for_night_mode ws) = ws.
Proof.
  unfold search_for_night_mode. induction ws as [|w ws IH]; simpl; [done|].
  by rewrite search_child_twice, IH.
Qed.


Lemma labels_recoloured (c : colour) (lbs : list (string * colour)) :
  map fst (map (λ label : string * colour, (label.1, c)) lbs) = map fst lbs ∧
  Forall (λ label, label.2 = c) (map (λ label : string * colour, (label.1, c)) lbs).
Proof.
  induction lbs as [|lb lbs [IH1 IH2]]; simpl; [by split|].
  split; [by rewrite IH1|by constructor].
Qed.

Lemma labels_fresh (texts : list string) :
  map fst (map (λ text : string, (text, DefaultColour)) texts) = texts ∧
  Forall (λ label, label.2 = DefaultColour)
    (map (λ text : string, (text, DefaultColour)) texts).
Proof.
  induction texts as [|t texts [IH1 IH2]]; simpl; [by split|].
  split; [by rewrite IH1|by constructor].
Qed.

Lemma labels_recoloured_same (c : colour) (lbs : list (string * colour)) :
  Forall (λ label, label.2 = c) lbs →
  map (λ label : string * colour, (label.1, c)) lbs = lbs.
Proof.
  induction 1 as [|[t c'] lbs Hc _ IH]; simpl in *; [done|]. by rewrite IH, Hc.
Qed.

End dark_mode.

(** X19.  Two toggles of the dark mode of the screen restore the mode of
    the screen and of every widget of its tree. *)
Theorem WHScreen_toggle_twice (s : bool * list widget) :
  WHScreen_toggle_dark_mode (WHScreen_toggle_dark_mode s) = s.
Proof.
  destruct s as [m ws]. unfold WHScreen_toggle_dark_mode. simpl.
  by rewrite toggle_night_mode_twice, search_for_night_mode_twice.
Qed.



(** X21.  [display_words] keeps the mode of the displayer and leaves the
    first 200 yields as label texts; when it ends without an exception
    every label has the colour of the mode, and when the generator raises
    the labels keep the colour they were created with. *)
Theorem display_words_colours (wd : WordsDisplayer) (g : generator) :
  let r := WordsDisplayer_display_words wd g in
  night_mode r.1.1 = night_mode wd ∧
  map fst (labels r.1.1) = take 200 (yields g) ∧
  (r.2 = Returned tt →
   Forall (λ label, label.2 = mode_colour (night_mode wd)) (labels r.1.1)) ∧
  (∀ x, r.2 = Raised x →
   Forall (λ label, label.2 = DefaultColour) (labels r.1.1)).
Proof.
  unfold WordsDisplayer_display_words.
  pose proof (display_words_labels (map fst (labels wd)) g) as Hl.
  destruct (display_words (map fst (labels wd)) g) as [[texts left_over] r].
  simpl in Hl. subst texts.
  destruct r as [[]|x]; simpl.
  - split_and!; [done| |intros _|intros x [=]].
    + rewrite (proj1 (labels_recoloured _ _)). apply labels_fresh.
    + apply labels_recoloured.
  - split_and!; [done|apply labels_fresh|intros [=]|intros _ _; apply labels_fresh].
Qed.

(** X22.  A toggle of the dark mode of the displayer flips its mode,
    keeps the texts of the labels and gives every label the colour of the
    new mode. *)
Theorem toggle_dark_mode_recolours (wd : WordsDisplayer) :
  night_mode (toggle_dark_mode wd) = negb (night_mode wd) ∧
  map fst (labels (toggle_dark_mode wd)) = map fst (labels wd) ∧
  Forall (λ label, label.2 = mode_colour (negb (night_mode wd)))
    (labels (toggle_dark_mode wd)).
Proof.
  unfold toggle_dark_mode, change_appearance. simpl.
  assert (toggle_night_mode (night_mode wd) = negb (night_mode wd)) as ->
    by by destruct (night_mode wd).
  split_and!; [done|apply labels_recoloured..].
Qed.

(** X23.  When the labels have the colour of the mode, two toggles of
    the dark mode bring the displayer back to where it was. *)
Theorem toggle_dark_mode_twice (wd : WordsDisplayer) :
  Forall (λ label, label.2 = mode_colour (night_mode wd)) (labels wd) →
  toggle_dark_mode (toggle_dark_mode wd) = wd.
Proof.
  intros H. destruct wd as [m lbs]. unfold toggle_dark_mode, change_appearance.
  simpl in *. rewrite toggle_night_mode_twice. f_equal.
  rewrite List.map_map. simpl. by apply labels_recoloured_same.
Qed.

Lemma toggle_dark_mode_twice_witness :
  let wd := {| night_mode := true;
               labels := [("crane", Colour 1 1 1); ("trace", Colour 1 1 1)] |} in
  Forall (λ label, label.2 = mode_colour (night_mode wd)) (labels wd) ∧
  toggle_dark_mode (toggle_dark_mode wd) = wd.
Proof.
  intros wd.
  assert (Forall (λ label, label.2 = mode_colour (night_mode wd)) (labels wd)) as H
    by (repeat constructor).
  split; [exact H|exact (toggle_dark_mode_twice wd H)].
Defined.

(** * The starting words and the letter inputs *)

Section text.
Implicit Types (s w cur line : string) (c : ascii).

Lemma lower_char_isspace c : isspace_char (lower_char c) = isspace_char c.
Proof. by destruct c as [[] [] [] [] [] [] [] []]. Qed.

Lemma lower_char_twice c : lower_char (lower_char c) = lower_char c.
Proof. by destruct c as [[] [] [] [] [] [] [] []]. Qed.

Lemma lower_upper_char c :
  is_ascii c = true → lower_char (upper_char c) = lower_char c.
Proof. by destruct c as [[] [] [] [] [] [] [] []]. Qed.

Lemma lower_twice s : lower (lower s) = lower s.
Proof. induction s as [|c s IH]; simpl; [done|]. by rewrite lower_char_twice, IH. Qed.

Lemma lower_upper s :
  all_chars is_ascii s = true → lower (upper s) = lower s.
Proof.
  induction s as [|c s IH]; simpl; [done|]. rewrite andb_true_iff.
  intros [Hc Hs]. by rewrite lower_upper_char, IH.
Qed.

Lemma lower_not_space s :
  all_chars not_space s = true → all_chars not_space (lower s) = true.
Proof.
  induction s as [|c s IH]; simpl; [done|]. rewrite !andb_true_iff.
  unfold not_space at 1 3. rewrite lower_char_isspace. intros [? ?]. auto.
Qed.

Lemma all_chars_app (p : ascii → bool) s c :
  all_chars p (s ++ String c EmptyString) = all_chars p s && p c.
Proof.
  induction s as [|a s IH]; simpl; [by rewrite andb_true_r|].
  by rewrite IH, andb_assoc.
Qed.

Lemma split_from_words cur s w :
  all_chars not_space cur = true →
  w ∈ split_from cur s → w ≠ "" ∧ all_chars not_space w = true.
Proof.
  revert cur. induction s as [|c s IH]; intros cur Hcur; simpl.
  - destruct (String.eqb_spec cur ""); [intros H; inversion H|].
    intros H. apply list_elem_of_singleton in H as ->. done.
  - destruct (isspace_char c) eqn:Hc.
    + destruct (String.eqb_spec cur "").
      * by apply (IH "").
      * intros H. apply elem_of_cons in H as [->|H]; [done|]. by apply (IH "").
    + apply IH. rewrite all_chars_app, Hcur. unfold not_space. by rewrite Hc.
Qed.

Lemma rstrip_not_space s : all_chars not_space s = true → rstrip s = s.
Proof.
  induction s as [|c s IH]; simpl; [done|]. rewrite andb_true_iff.
  intros [Hc Hs]. rewrite (IH Hs). unfold not_space in Hc.
  destruct (isspace_char c); [done|]. by rewrite andb_false_r.
Qed.

Lemma strip_not_space s : all_chars not_space s = true → strip s = s.
Proof.
  intros H. unfold strip.
  assert (lstrip s = s) as ->; [|by apply rstrip_not_space].
  destruct s as [|c s]; simpl in *; [done|].
  apply andb_true_iff in H as [Hc _]. unfold not_space in Hc.
  by destruct (isspace_char c).
Qed.

Lemma lower_nonempty s : s ≠ "" → lower s ≠ "".
Proof. by destruct s. Qed.

Lemma readline_no_line_end line : all_chars not_line_end line = true → readline line = line.
Proof.
  induction line as [|c line IH]; simpl; [done|]. rewrite andb_true_iff.
  unfold not_line_end at 1. intros [Hc Hl].
  destruct (_ || _); [done|]. by rewrite IH.
Qed.

Lemma readline_first_line line c rest :
  all_chars not_line_end line = true →
  not_line_end c = false →
  readline (line ++ String c rest) = line ++ String (ascii_of_nat 10) EmptyString.
Proof.
  intros Hl Hc. induction line as [|a line IH]; simpl in *.
  - unfold not_line_end in Hc. by destruct (_ || _).
  - apply andb_true_iff in Hl as [Ha Hl]. unfold not_line_end in Ha.
    destruct (_ || _); [done|]. by rewrite IH.
Qed.

Lemma split_from_line_feed cur s :
  split_from cur (s ++ String (ascii_of_nat 10) EmptyString) = split_from cur s.
Proof.
  revert cur. induction s as [|c s IH]; intros cur; simpl.
  - change (isspace_char (ascii_of_nat 10)) with true. simpl.
    by destruct (String.eqb cur "").
  - destruct (isspace_char c); [|apply IH].
    destruct (String.eqb cur ""); by rewrite IH.
Qed.

Lemma isalpha_nonempty s : isalpha s = true → s ≠ "".
Proof. by destruct s. Qed.

Lemma upper_nonempty s : s ≠ "" → upper s ≠ "".
Proof. by destruct s. Qed.

Lemma append_empty s : s ++ "" = s.
Proof.
  induction s as [|c s IH]; [done|].
  change (String c (s ++ "") = String c s). by f_equal.
Qed.

End text.

(** X24.  Every starting word is not empty, has no whitespace and no
    upper-case letter; the [strip] of the comprehension changes nothing,
    the words are the lower-cased pieces of the first line. *)
Theorem starting_words_are_clean (content w : string) :
  w ∈ starting_words content →
  w ≠ "" ∧ all_chars not_space w = true ∧ lower w = w ∧ strip w = w ∧
  starting_words content = map lower (split (readline content)).
Proof.
  unfold starting_words, split.
  assert (∀ p, p ∈ split_from "" (readline content) →
               p ≠ "" ∧ all_chars not_space p = true) as Hp
    by (intros p; by apply split_from_words).
  assert (map (λ word, strip (lower word)) (split_from "" (readline content)) =
          map lower (split_from "" (readline content))) as Heq.
  { revert Hp. generalize (split_from "" (readline content)) as ps.
    induction ps as [|p ps IH]; intros Hp; simpl; [done|].
    rewrite IH by (intros q Hq; apply Hp; by right).
    rewrite strip_not_space; [done|].
    apply lower_not_space, Hp. by left. }
  rewrite Heq. intros Hw.
  apply list_elem_of_fmap in Hw as (p & -> & Hin). destruct (Hp p Hin) as [Hne Hns].
  split_and!; [by apply lower_nonempty|by apply lower_not_space|apply lower_twice
              | |done].
  by apply strip_not_space, lower_not_space.
Qed.

Lemma starting_words_are_clean_witness :
  let content := String.append "Crane  SLATE "
                   (String (ascii_of_nat 10) "other words") in
  "slate" ∈ starting_words content ∧
  "slate" ≠ "" ∧ all_chars not_space "slate" = true ∧ lower "slate" = "slate" ∧
  strip "slate" = "slate" ∧
  starting_words content = map lower (split (readline content)).
Proof.
  intros content.
  assert ("slate" ∈ starting_words content) as H by (right; left).
  split; [exact H|exact (starting_words_are_clean content "slate" H)].
Defined.

(** X25.  Only the first line of the file counts: what follows the first
    line feed or carriage return does not change the labels that
    [load_starting_words] leaves, and an empty file leaves the heading
    alone. *)
Theorem load_starting_words_first_line (line rest : string) (c : ascii) :
  all_chars not_line_end line = true →
  not_line_end c = false →
  load_starting_words (line ++ String c rest) = load_starting_words line ∧
  load_starting_words "" = ["BEST STARTING WORDS"].
Proof.
  intros Hl Hc. split; [|done].
  unfold load_starting_words, starting_words, split.
  by rewrite readline_first_line, split_from_line_feed, readline_no_line_end.
Qed.

Lemma load_starting_words_first_line_witness :
  all_chars not_line_end "crane slate" = true ∧
  not_line_end (ascii_of_nat 13) = false ∧
  load_starting_words ("crane slate" ++ String (ascii_of_nat 13) "trace")
    = load_starting_words "crane slate" ∧
  load_starting_words "" = ["BEST STARTING WORDS"].
Proof.
  assert (all_chars not_line_end "crane slate" = true) as H1 by reflexivity.
  assert (not_line_end (ascii_of_nat 13) = false) as H2 by reflexivity.
  split_and!; [exact H1|exact H2|..];
    apply (load_starting_words_first_line "crane slate" "trace" _ H1 H2).
Defined.

(** X26.  [insert_text] of a substring of ASCII characters, for a
    toolkit insertion that leaves a text unchanged when nothing is
    inserted and gives the inserted text when the input was empty: a
    substring that is not alphabetic changes nothing; an alphabetic one
    replaces the text by its upper case, and the entry then contributes
    the lower-cased substring, at its own position, to the known
    letters. *)
Theorem insert_text_known_letter (TextInput_insert_text : string → string → string)
    (entries : list string) (i : nat) (text substring : string) :
  all_chars is_ascii substring = true →
  (∀ t, TextInput_insert_text t "" = t) →
  (∀ s, TextInput_insert_text "" s = s) →
  entries !! i = Some text →
  (isalpha substring = false →
   insert_text TextInput_insert_text text substring = text) ∧
  (isalpha substring = true →
   insert_text TextInput_insert_text text substring = upper substring ∧
   (lower substring, Z.of_nat i) ∈
     get_known_letters
       (<[i := insert_text TextInput_insert_text text substring]> entries)).
Proof.
  intros Hascii H1 H2 Hi.
  unfold insert_text. split; intros Ha; rewrite Ha; [apply H1|].
  rewrite H2. split; [done|].
  unfold get_known_letters. apply known_letters_from_spec. split; [lia|].
  exists (upper substring). replace (Z.to_nat (Z.of_nat i - 0)) with i by lia.
  split_and!.
  - apply list_lookup_insert_eq. by eapply lookup_lt_Some.
  - by apply upper_nonempty, isalpha_nonempty.
  - by rewrite lower_upper.
Qed.

Lemma insert_text_known_letter_witness :
  all_chars is_ascii "r" = true ∧
  (∀ t, String.append t "" = t) ∧
  (∀ s, String.append "" s = s) ∧
  ["C"; ""; ""; ""; ""] !! 1%nat = Some "" ∧
  (isalpha "r" = false → insert_text String.append "" "r" = "") ∧
  (isalpha "r" = true →
   insert_text String.append "" "r" = upper "r" ∧
   (lower "r", Z.of_nat 1) ∈
     get_known_letters
       (<[1%nat := insert_text String.append "" "r"]> ["C"; ""; ""; ""; ""])).
Proof.
  assert (∀ s, String.append "" s = s) as H2 by reflexivity.
  assert (["C"; ""; ""; ""; ""] !! 1%nat = Some "") as H3 by reflexivity.
  assert (all_chars is_ascii "r" = true) as H0 by reflexivity.
  split_and!; [exact H0|exact append_empty|exact H2|exact H3|..];
    apply (insert_text_known_letter String.append ["C"; ""; ""; ""; ""] 1 "" "r"
             H0 append_empty H2 H3).
Defined.
